(** * Nimbus controller: lineage ledger, template manager, execution template

    A shallow embedding of
    - [scheduler/logical_data_lineage.cc]  (class [LogicalDataLineage]),
    - the template manager                 (class [TemplateManager]),
    - the worker-side execution template   (the [JobTemplate] classes),
    together with the properties of the controller specification that
    concern them. *)

From Stdlib Require Import NArith ZArith Lia.
From stdpp Require Import base tactics option list sorting gmap strings.

Set Default Proof Using "Type".
Set Warnings "-clear-no-such-hyp".

(** ** Outcomes of a call

    The C++ functions either return, stop in a failed [assert], or run
    into behaviour the language leaves undefined (dereferencing a
    past-the-end or dangling [std::list] iterator). *)

Inductive outcome (A : Type) : Type :=
  | Ok (a : A)
  | AssertFail
  | Undefined.
Arguments Ok {A} a.
Arguments AssertFail {A}.
Arguments Undefined {A}.

Global Instance outcome_ret : MRet outcome := λ A a, Ok a.
Global Instance outcome_bind : MBind outcome := λ A B f m,
  match m with
  | Ok a => f a
  | AssertFail => AssertFail
  | Undefined => Undefined
  end.

(** [assert(b)] *)
Definition assert (b : bool) : outcome unit :=
  if b then Ok () else AssertFail.

(** ** Identifiers and lineage entries *)

Definition job_id_t := N.
Definition logical_data_id_t := N.
Definition data_version_t := N.
Definition job_depth_t := N.

(** Modelled from the spec: [IDSet<job_id_t>] ([shared/idset.h] is not
    among the sources) is a finite set of job ids with [size] and
    [remove]. *)
Abbreviation IDSet := (gset job_id_t).

(** Modelled from the spec: [LdlEntry] ([scheduler/ldl_entry.h] is not
    among the sources) is the lineage entry
    [(job_id, version, depth, sterile)], built by
    [LdlEntry(job_id, version, job_depth, sterile)] and read through the
    accessors of the same names. *)
Record LdlEntry : Type := mkLdlEntry {
  job_id : job_id_t;
  version : data_version_t;
  job_depth : job_depth_t;
  sterile : bool
}.

(** ** [std::list] nodes and iterators

    [Chain] is a [std::list<LdlEntry>] and [Index] a
    [std::list<Chain::iterator>]: the parent index holds iterators into
    the chain, and a list iterator stays attached to its node when
    other nodes are inserted or erased.  A chain is therefore a list of
    nodes, each with an identity; an iterator is a node identity or the
    past-the-end position. *)

Definition node := nat.

Inductive iterator : Type :=
  | It (n : node)
  | End.

Global Instance iterator_eq_dec : EqDecision iterator.
Proof. solve_decision. Defined.

Definition Chain := list (node * LdlEntry).
Definition Index := list iterator.

Record LogicalDataLineage : Type := mkLineage {
  ldid_ : logical_data_id_t;
  chain_ : Chain;
  parents_index_ : Index;
  (** identity handed to the next allocated list node *)
  next_node : node
}.

(** [LogicalDataLineage(ldid)] *)
Definition new_lineage (ldid : logical_data_id_t) : LogicalDataLineage :=
  {| ldid_ := ldid; chain_ := []; parents_index_ := []; next_node := 0 |}.

Fixpoint find_node (n : node) (c : Chain) : option LdlEntry :=
  match c with
  | [] => None
  | (m, e) :: c' => if decide (m = n) then Some e else find_node n c'
  end.

(** [*it] / [it->] for a [Chain::iterator] *)
Definition deref (c : Chain) (it : iterator) : outcome LdlEntry :=
  match it with
  | End => Undefined
  | It n => match find_node n c with
            | Some e => Ok e
            | None => Undefined
            end
  end.

(** A loop [for (it = l.rbegin(); it != l.rend(); ++it) if (stop *it) break;]
    run on [r], the list read from its tail.  The result [(p, q)] splits
    [r]: [p] holds the elements stepped over and the head of [q], if
    any, is [*it]. *)
Fixpoint rscan {A : Type} (stop : A → bool) (r : list A) : list A * list A :=
  match r with
  | [] => ([], [])
  | x :: r' =>
      if stop x then ([], r)
      else let '(p, q) := rscan stop r' in (x :: p, q)
  end.

(** The same loop when evaluating the condition dereferences an
    iterator. *)
Fixpoint rscanM {A : Type} (stop : A → outcome bool) (r : list A)
    : outcome (list A * list A) :=
  match r with
  | [] => Ok ([], [])
  | x :: r' =>
      b ← stop x;
      if b : bool then Ok ([], r)
      else '(p, q) ← rscanM stop r'; Ok (x :: p, q)
  end.

(** [it.base()] of a reverse chain iterator that stepped over [p]: the
    node that follows [*it] in list order, or [end()]. *)
Definition base_iter (p : Chain) : iterator :=
  match reverse p with
  | [] => End
  | (n, _) :: _ => It n
  end.

(** ** [LogicalDataLineage::LastVersionInChain]

    [chain_.rbegin()->version()]; nothing to read on an empty chain. *)
Definition LastVersionInChain (s : LogicalDataLineage) : option data_version_t :=
  (λ x, version x.2) <$> last (chain_ s).

(** ** [LogicalDataLineage::AppendLdlEntry] *)
Definition AppendLdlEntry (s : LogicalDataLineage)
    (job_id : job_id_t) (version : data_version_t)
    (job_depth : job_depth_t) (sterile : bool)
    : outcome (bool * LogicalDataLineage) :=
  match LastVersionInChain s with
  | None => Undefined
  | Some lv =>
      _ ← assert (bool_decide (lv < version)%N);
      let n := next_node s in
      Ok (true,
          {| ldid_ := ldid_ s;
             chain_ := chain_ s ++ [(n, mkLdlEntry job_id version job_depth sterile)];
             parents_index_ :=
               if sterile then parents_index_ s
               else parents_index_ s ++ [It n];
             next_node := S n |})
  end.

(** ** [LogicalDataLineage::InsertParentLdlEntry] *)

(** Lines 145-151: the chain after [chain_.insert(it.base(), ...)],
    and [it.base()]. *)
Definition InsertParentLdlEntry_chain (c : Chain) (n : node) (e : LdlEntry)
    : Chain * iterator :=
  let '(p, q) := rscan (λ x, bool_decide (version x.2 ≤ version e)%N) (reverse c) in
  (reverse q ++ (n, e) :: reverse p, base_iter p).

(** Lines 143-159: the state in which the check of lines 162-164
    starts. *)
Definition InsertParentLdlEntry_splice (s : LogicalDataLineage)
    (job_id : job_id_t) (version0 : data_version_t)
    (job_depth : job_depth_t) (sterile : bool)
    : outcome LogicalDataLineage :=
  _ ← assert (negb sterile);
  let n := next_node s in
  let '(chain', base) :=
    InsertParentLdlEntry_chain (chain_ s) n
      (mkLdlEntry job_id version0 job_depth sterile) in
  '(ip, iq) ← rscanM
      (λ iit, e ← deref chain' iit; Ok (bool_decide (version e ≤ version0)%N))
      (reverse (parents_index_ s));
  Ok {| ldid_ := ldid_ s;
        chain_ := chain';
        parents_index_ := reverse iq ++ base :: reverse ip;
        next_node := S n |}.

(** Lines 162-164: every index entry, from the tail, is dereferenced
    and asserted non-sterile. *)
Fixpoint check_parents (c : Chain) (r : Index) : outcome unit :=
  match r with
  | [] => Ok ()
  | iit :: r' =>
      e ← deref c iit;
      _ ← assert (negb (sterile e));
      check_parents c r'
  end.

Definition InsertParentLdlEntry (s : LogicalDataLineage)
    (job_id : job_id_t) (version : data_version_t)
    (job_depth : job_depth_t) (sterile : bool)
    : outcome (bool * LogicalDataLineage) :=
  s' ← InsertParentLdlEntry_splice s job_id version job_depth sterile;
  _ ← check_parents (chain_ s') (reverse (parents_index_ s'));
  Ok (true, s').

(** ** [LogicalDataLineage::CleanChain] *)

(** Lines 179-185, on the index read from its tail: the working set
    after the loop, the index entries stepped over, and the rest, whose
    head is [*iit] when the loop was left by [break]. *)
Fixpoint clean_scan (c : Chain) (temp : IDSet) (r : Index)
    : outcome (IDSet * (Index * Index)) :=
  match r with
  | [] => Ok (temp, ([], []))
  | iit :: r' =>
      e ← deref c iit;
      let temp' := temp ∖ {[ job_id e ]} in
      if decide (size temp' = 0) then Ok (temp', ([], r))
      else '(t, (p, q)) ← clean_scan c temp' r'; Ok (t, (iit :: p, q))
  end.

(** [chain_.erase(chain_.begin(), last)]: nodes are unlinked from the
    front until [last] is met; [last] has to be reachable. *)
Fixpoint erase_until (c : Chain) (last : iterator) : outcome Chain :=
  match c with
  | [] => if decide (last = End) then Ok [] else Undefined
  | (m, e) :: c' =>
      if decide (last = It m) then Ok c else erase_until c' last
  end.

Definition CleanChain (s : LogicalDataLineage) (live_parents : IDSet)
    : outcome (bool * LogicalDataLineage) :=
  if decide (size live_parents = 0) then
    Ok (true,
        {| ldid_ := ldid_ s; chain_ := []; parents_index_ := [];
           next_node := next_node s |})
  else
    '(temp, (p, q)) ← clean_scan (chain_ s) live_parents
                        (reverse (parents_index_ s));
    _ ← assert (bool_decide (size temp = 0));
    match q with
    | [] => Undefined
    | iit :: _ =>
        chain' ← erase_until (chain_ s) iit;
        Ok (true,
            {| ldid_ := ldid_ s;
               chain_ := chain';
               parents_index_ := iit :: reverse p;
               next_node := next_node s |})
    end.

(** ** Order of versions, well-formed lineages *)

Definition versions (c : Chain) : list data_version_t :=
  (λ x, version x.2) <$> c.

Definition strictly_increasing (c : Chain) : Prop :=
  StronglySorted N.lt (versions c).

Definition nondecreasing (c : Chain) : Prop :=
  StronglySorted N.le (versions c).

(** [linked c i]: every entry of the index [i] is an iterator to a
    non-sterile node of [c], and the entries follow the order of the
    chain (the same node may be referenced more than once). *)
Inductive linked : Chain → Index → Prop :=
  | linked_nil c : linked c []
  | linked_skip x c i : linked c i → linked (x :: c) i
  | linked_take n e c i :
      sterile e = false →
      linked ((n, e) :: c) i →
      linked ((n, e) :: c) (It n :: i).

Record well_formed (s : LogicalDataLineage) : Prop := mk_wf {
  wf_nodup : NoDup (chain_ s).*1;
  wf_fresh : ∀ n, n ∈ (chain_ s).*1 → n < next_node s;
  wf_sorted : nondecreasing (chain_ s);
  wf_linked : linked (chain_ s) (parents_index_ s)
}.

(** The property of the parent index the specification asks for. *)
Definition parents_nonsterile (s : LogicalDataLineage) : Prop :=
  ∀ it, it ∈ parents_index_ s →
    ∃ e, deref (chain_ s) it = Ok e ∧ sterile e = false.

(** Job ids of the writers an index refers to. *)
Definition writers (c : Chain) (i : Index) : IDSet :=
  list_to_set (omap (λ it, match deref c it with
                           | Ok e => Some (job_id e)
                           | _ => None
                           end) i).

(** ** Operations as a transition system *)

Inductive op : Type :=
  | OpAppend (j : job_id_t) (v : data_version_t) (d : job_depth_t) (st : bool)
  | OpInsertParent (j : job_id_t) (v : data_version_t) (d : job_depth_t) (st : bool)
  | OpCleanChain (live : IDSet).

Definition run_op (s : LogicalDataLineage) (o : op)
    : outcome (bool * LogicalDataLineage) :=
  match o with
  | OpAppend j v d st => AppendLdlEntry s j v d st
  | OpInsertParent j v d st => InsertParentLdlEntry s j v d st
  | OpCleanChain live => CleanChain s live
  end.

(** [InsertParentLdlEntry] as compiled with [NDEBUG]: the assertion of
    line 143 and the body of the loop of lines 162-164 expand to
    nothing, so lines 145-159 run and the call returns [true]. *)
Definition InsertParentLdlEntry_NDEBUG (s : LogicalDataLineage)
    (job_id : job_id_t) (version0 : data_version_t)
    (job_depth : job_depth_t) (sterile : bool)
    : outcome (bool * LogicalDataLineage) :=
  let n := next_node s in
  let '(chain', base) :=
    InsertParentLdlEntry_chain (chain_ s) n
      (mkLdlEntry job_id version0 job_depth sterile) in
  '(ip, iq) ← rscanM
      (λ iit, e ← deref chain' iit; Ok (bool_decide (version e ≤ version0)%N))
      (reverse (parents_index_ s));
  Ok (true,
      {| ldid_ := ldid_ s;
         chain_ := chain';
         parents_index_ := reverse iq ++ base :: reverse ip;
         next_node := S n |}).


(** The iterator to the first node of [c]. *)
Definition head_iter (c : Chain) : iterator :=
  match c with
  | [] => End
  | (n, _) :: _ => It n
  end.

(** An index entry that passes the check of lines 162-164. *)
Definition fine (c : Chain) (it : iterator) : Prop :=
  ∃ e, deref c it = Ok e ∧ sterile e = false.

Definition returns {A} (o : outcome A) : Prop :=
  match o with Ok _ => True | _ => False end.

(** Every iterator of the parent index can be dereferenced. *)
Definition valid_index (s : LogicalDataLineage) : Prop :=
  Forall (λ it, returns (deref (chain_ s) it)) (parents_index_ s).

(** ** Sample lineages *)

Definition e1 := mkLdlEntry 11%N 1%N 0%N false.
Definition e3 := mkLdlEntry 13%N 3%N 0%N false.
Definition two_writers : LogicalDataLineage :=
  {| ldid_ := 7%N; chain_ := [(0, e1); (1, e3)];
     parents_index_ := [It 0; It 1]; next_node := 2 |}.

(** A sterile writer between two parents. *)
Definition e2s := mkLdlEntry 12%N 2%N 0%N true.
Definition with_sterile : LogicalDataLineage :=
  {| ldid_ := 7%N; chain_ := [(0, e1); (1, e2s); (2, e3)];
     parents_index_ := [It 0; It 2]; next_node := 3 |}.

(** * The template manager ([TemplateManager])

    Every member function takes [mutex_] for its whole body, so calls
    are serialised; a call is a function from the state before to the
    returned [bool] and the state after. *)

Module Template.

(** The arguments of [AddComputeJobToTemplate] after the template
    name. *)
Record ComputeJobArgs (GeometricRegion : Type) : Type := mkComputeJobArgs {
  job_name : string;
  job_id : job_id_t;
  read_set : gset logical_data_id_t;
  write_set : gset logical_data_id_t;
  before_set : IDSet;
  after_set : IDSet;
  parent_job_id : job_id_t;
  future_job_id : job_id_t;
  sterile : bool;
  region : GeometricRegion
}.

(** [scheduler/template_entry.h], [scheduler/job_manager.h] and the
    types of the arguments are not among the sources: the template
    entry is taken through the interface [TemplateManager] calls.  A
    method that mutates the entry (or the job manager it is handed)
    returns the object after the call next to its [bool]. *)
Class TemplateEntryOps : Type := {
  TemplateEntry : Type;
  JobManager : Type;
  GeometricRegion : Type;
  ParameterT : Type;
  new_TemplateEntry : TemplateEntry;
  finalized : TemplateEntry → bool;
  Finalize : TemplateEntry → bool * TemplateEntry;
  CleanPartiallyFilledTemplate : TemplateEntry → bool * TemplateEntry;
  AddComputeJob :
    ComputeJobArgs GeometricRegion → TemplateEntry → bool * TemplateEntry;
  Instantiate :
    JobManager → list job_id_t → list job_id_t → list ParameterT →
    job_id_t → TemplateEntry → bool * (TemplateEntry * JobManager)
}.

Section manager.
Context `{ops : TemplateEntryOps}.

(** [template_map_] maps a name to the entry it owns; [job_manager_]
    is [NULL] ([None]) until [set_job_manager].  Complex jobs live in
    the job manager. *)
Record TemplateManager : Type := mkTemplateManager {
  template_map_ : gmap string TemplateEntry;
  job_manager_ : option JobManager
}.

Definition set_entry (tm : TemplateManager) (name : string)
    (te : TemplateEntry) : TemplateManager :=
  {| template_map_ := <[name := te]> (template_map_ tm);
     job_manager_ := job_manager_ tm |}.

Definition DetectNewTemplate (tm : TemplateManager) (template_name : string)
    : bool * TemplateManager :=
  match template_map_ tm !! template_name with
  | None => (true, set_entry tm template_name new_TemplateEntry)
  | Some te =>
      if negb (finalized te) then
        let '(cleaned, te') := CleanPartiallyFilledTemplate te in
        if cleaned then (true, set_entry tm template_name te')
        else (false, set_entry tm template_name te')
      else (false, tm)
  end.

Definition FinalizeNewTemplate (tm : TemplateManager) (template_name : string)
    : bool * TemplateManager :=
  match template_map_ tm !! template_name with
  | Some te =>
      let '(b, te') := Finalize te in (b, set_entry tm template_name te')
  | None => (false, tm)
  end.

Definition InstantiateTemplate (tm : TemplateManager) (template_name : string)
    (inner_job_ids outer_job_ids : list job_id_t)
    (parameters : list ParameterT) (parent_job_id : job_id_t)
    : bool * TemplateManager :=
  match template_map_ tm !! template_name with
  | Some te =>
      match job_manager_ tm with
      | None => (false, tm)
      | Some jm =>
          if finalized te then
            let '(b, (te', jm')) :=
              Instantiate jm inner_job_ids outer_job_ids parameters
                parent_job_id te in
            (b, {| template_map_ := <[template_name := te']> (template_map_ tm);
                   job_manager_ := Some jm' |})
          else (false, tm)
      end
  | None => (false, tm)
  end.

Definition AddComputeJobToTemplate (tm : TemplateManager)
    (template_name : string) (args : ComputeJobArgs GeometricRegion)
    : bool * TemplateManager :=
  match template_map_ tm !! template_name with
  | Some te =>
      match job_manager_ tm with
      | None => (false, tm)
      | Some _ =>
          if negb (finalized te) then
            let '(b, te') := AddComputeJob args te in
            (b, set_entry tm template_name te')
          else (false, tm)
      end
  | None => (false, tm)
  end.
End manager.

Arguments TemplateManager : clear implicits.

(** A template entry for tests: a finalized flag and the names of the
    compute jobs added so far; the job manager is the list of the
    complex jobs created, each by its parent job and inner job ids. *)
Definition toy_ops : TemplateEntryOps :=
  {| TemplateEntry := bool * list string;
     JobManager := list (job_id_t * list job_id_t);
     GeometricRegion := unit;
     ParameterT := string;
     new_TemplateEntry := (false, []);
     finalized := fst;
     Finalize := λ te, (true, (true, te.2));
     CleanPartiallyFilledTemplate := λ te, (true, (false, []));
     AddComputeJob := λ args te, (true, (te.1, te.2 ++ [job_name _ args]));
     Instantiate := λ jm inner outer params parent te,
       (true, (te, jm ++ [(parent, inner)])) |}.

Definition toy_manager : TemplateManager toy_ops :=
  @mkTemplateManager toy_ops
    {[ "frozen" := (true, ["advect"]); "open" := (false, ["advect"]) ]}
    (Some []).

Definition toy_args : ComputeJobArgs unit :=
  {| job_name := "project"; job_id := 5%N; read_set := ∅; write_set := ∅;
     before_set := ∅; after_set := ∅; parent_job_id := 1%N;
     future_job_id := 0%N; sterile := true; region := () |}.

End Template.

(** * The worker-side execution template ([ExecutionTemplate]) *)

Module ExecutionTemplate.

Inductive JobTemplateType : Type :=
  | BASE
  | COMPUTE
  | COMBINE
  | LC
  | RCS
  | RCR
  | MEGA_RCR.

(** [size_t] is taken to be 64 bits wide; sums are reduced modulo
    [2^64]. *)
Definition size_t_modulus : Z := 2 ^ 64.
Definition to_size_t (z : Z) : Z := z mod size_t_modulus.

(** [shared_ptr<job_id_t>], [shared_ptr<physical_data_id_t>]: the id
    the pointer leads to. *)
Definition JobIdPtr := N.
Definition PhyIdPtr := N.
(** [Job*] *)
Definition JobPtr := N.
(** [boost::unordered_set<PhyIdPtr>] *)
Abbreviation PhyIdPtrSet := (gset PhyIdPtr).

(** Modelled from the spec: [IDSet<job_id_t>::size()] ([shared/idset.h]
    is not among the sources) is the number of ids in the set. *)
Definition IDSet_size (s : IDSet) : Z := Z.of_nat (size s).

(** [v.size()] of a [std::vector] *)
Definition vector_size {A} (v : list A) : Z := Z.of_nat (length v).

(** The members of [JobTemplate].  The base constructor leaves
    [dependency_num_] unset ([None]); every derived constructor
    assigns it. *)
Record JobTemplate : Type := mkJobTemplate {
  job_ : JobPtr;
  job_id_ptr_ : JobIdPtr;
  type_ : JobTemplateType;
  before_set_ : IDSet;
  dependency_num_ : option Z;
  dependency_counter_ : Z;
  after_set_job_templates_ : list JobIdPtr
}.

(** [JobTemplate(job, job_id_ptr, before_set)] *)
Definition JobTemplate_ctor (job : JobPtr) (job_id_ptr : JobIdPtr)
    (before_set : IDSet) : JobTemplate :=
  {| job_ := job; job_id_ptr_ := job_id_ptr; type_ := BASE;
     before_set_ := before_set; dependency_num_ := None;
     dependency_counter_ := 0; after_set_job_templates_ := [] |}.

(** The two assignments in the body of a derived constructor. *)
Definition set_kind (t : JobTemplate) (k : JobTemplateType) (n : Z)
    : JobTemplate :=
  {| job_ := job_ t; job_id_ptr_ := job_id_ptr_ t; type_ := k;
     before_set_ := before_set_ t; dependency_num_ := Some (to_size_t n);
     dependency_counter_ := dependency_counter_ t;
     after_set_job_templates_ := after_set_job_templates_ t |}.

Record ComputeJobTemplate : Type := mkComputeJobTemplate {
  compute_base : JobTemplate;
  compute_read_set_ptr_ : PhyIdPtrSet;
  compute_write_set_ptr_ : PhyIdPtrSet;
  compute_scratch_set_ptr_ : PhyIdPtrSet;
  compute_reduce_set_ptr_ : PhyIdPtrSet;
  compute_future_job_id_ptr_ : JobIdPtr;
  compute_param_index_ : Z
}.

Record CombineJobTemplate : Type := mkCombineJobTemplate {
  combine_base : JobTemplate;
  combine_scratch_set_ptr_ : PhyIdPtrSet;
  combine_reduce_set_ptr_ : PhyIdPtrSet
}.

Record LocalCopyJobTemplate : Type := mkLocalCopyJobTemplate {
  lc_base : JobTemplate;
  lc_from_physical_data_id_ptr_ : PhyIdPtr;
  lc_to_physical_data_id_ptr_ : PhyIdPtr
}.

Record RemoteCopySendJobTemplate : Type := mkRemoteCopySendJobTemplate {
  rcs_base : JobTemplate;
  rcs_from_physical_data_id_ptr_ : PhyIdPtr
}.

Record RemoteCopyReceiveJobTemplate : Type := mkRemoteCopyReceiveJobTemplate {
  rcr_base : JobTemplate;
  rcr_to_physical_data_id_ptr_ : PhyIdPtr
}.

Record MegaRCRJobTemplate : Type := mkMegaRCRJobTemplate {
  mega_rcr_base : JobTemplate;
  mega_rcr_to_phy_id_ptrs_ : list PhyIdPtr
}.

Definition ComputeJobTemplate_ctor (job : JobPtr) (job_id_ptr : JobIdPtr)
    (read_set_ptr write_set_ptr scratch_set_ptr reduce_set_ptr : PhyIdPtrSet)
    (before_set : IDSet) (future_job_id_ptr : JobIdPtr) (param_index : Z)
    : ComputeJobTemplate :=
  {| compute_base :=
       set_kind (JobTemplate_ctor job job_id_ptr before_set) COMPUTE
         (IDSet_size before_set);
     compute_read_set_ptr_ := read_set_ptr;
     compute_write_set_ptr_ := write_set_ptr;
     compute_scratch_set_ptr_ := scratch_set_ptr;
     compute_reduce_set_ptr_ := reduce_set_ptr;
     compute_future_job_id_ptr_ := future_job_id_ptr;
     compute_param_index_ := param_index |}.

Definition CombineJobTemplate_ctor (job : JobPtr) (job_id_ptr : JobIdPtr)
    (scratch_set_ptr reduce_set_ptr : PhyIdPtrSet) (before_set : IDSet)
    : CombineJobTemplate :=
  {| combine_base :=
       set_kind (JobTemplate_ctor job job_id_ptr before_set) COMBINE
         (IDSet_size before_set);
     combine_scratch_set_ptr_ := scratch_set_ptr;
     combine_reduce_set_ptr_ := reduce_set_ptr |}.

Definition LocalCopyJobTemplate_ctor (job : JobPtr) (job_id_ptr : JobIdPtr)
    (from_physical_data_id_ptr to_physical_data_id_ptr : PhyIdPtr)
    (before_set : IDSet) : LocalCopyJobTemplate :=
  {| lc_base :=
       set_kind (JobTemplate_ctor job job_id_ptr before_set) LC
         (IDSet_size before_set);
     lc_from_physical_data_id_ptr_ := from_physical_data_id_ptr;
     lc_to_physical_data_id_ptr_ := to_physical_data_id_ptr |}.

Definition RemoteCopySendJobTemplate_ctor (job : JobPtr) (job_id_ptr : JobIdPtr)
    (from_physical_data_id_ptr : PhyIdPtr) (before_set : IDSet)
    : RemoteCopySendJobTemplate :=
  {| rcs_base :=
       set_kind (JobTemplate_ctor job job_id_ptr before_set) RCS
         (IDSet_size before_set);
     rcs_from_physical_data_id_ptr_ := from_physical_data_id_ptr |}.

(** "+1 for data delivery" *)
Definition RemoteCopyReceiveJobTemplate_ctor (job : JobPtr)
    (job_id_ptr : JobIdPtr) (to_physical_data_id_ptr : PhyIdPtr)
    (before_set : IDSet) : RemoteCopyReceiveJobTemplate :=
  {| rcr_base :=
       set_kind (JobTemplate_ctor job job_id_ptr before_set) RCR
         (IDSet_size before_set + 1);
     rcr_to_physical_data_id_ptr_ := to_physical_data_id_ptr |}.

(** "+ receive_job_id_ptrs.size() for data delivery" *)
Definition MegaRCRJobTemplate_ctor (job : JobPtr) (job_id_ptr : JobIdPtr)
    (to_phy_id_ptrs : list PhyIdPtr) (before_set : IDSet)
    : MegaRCRJobTemplate :=
  {| mega_rcr_base :=
       set_kind (JobTemplate_ctor job job_id_ptr before_set) MEGA_RCR
         (IDSet_size before_set + vector_size to_phy_id_ptrs);
     mega_rcr_to_phy_id_ptrs_ := to_phy_id_ptrs |}.

End ExecutionTemplate.

(** * The complex job entry ([scheduler/complex_job_entry.cc]) *)

Module ComplexJob.

Inductive JobType : Type :=
  | JOB_CMPX.

Section entry.
(** [TemplateEntry] is not among the sources; the entry holds a pointer
    to it and [GetParentJobIds] asks it for the indices of the parent
    jobs through [GetParentJobIndices], which reports success and
    fills a [std::list<size_t>]. *)
Context {TemplateEntryPtr ParameterT : Type}.
Context (GetParentJobIndices : TemplateEntryPtr → bool * list N).

Record ComplexJobEntry : Type := mkComplexJobEntry {
  job_type_ : JobType;
  job_id_ : job_id_t;
  parent_job_id_ : job_id_t;
  template_entry_ : TemplateEntryPtr;
  inner_job_ids_ : list job_id_t;
  outer_job_ids_ : list job_id_t;
  parameters_ : list ParameterT
}.

(** [ComplexJobEntry(job_id, parent_job_id, template_entry,
    inner_job_ids, outer_job_ids, parameters)] *)
Definition ComplexJobEntry_ctor (job_id parent_job_id : job_id_t)
    (template_entry : TemplateEntryPtr)
    (inner_job_ids outer_job_ids : list job_id_t)
    (parameters : list ParameterT) : ComplexJobEntry :=
  {| job_type_ := JOB_CMPX; job_id_ := job_id;
     parent_job_id_ := parent_job_id; template_entry_ := template_entry;
     inner_job_ids_ := inner_job_ids; outer_job_ids_ := outer_job_ids;
     parameters_ := parameters |}.

(** The loop of [GetParentJobIds]: [inner_job_ids_[*iter]] is an
    unchecked [std::vector] access, [count] a [size_t]. *)
Fixpoint collect_parents (inner_job_ids : list job_id_t) (indices : list N)
    (count : Z) (list_ : list job_id_t) : outcome (Z * list job_id_t) :=
  match indices with
  | [] => Ok (count, list_)
  | i :: indices' =>
      match inner_job_ids !! N.to_nat i with
      | None => Undefined
      | Some id =>
          collect_parents inner_job_ids indices'
            (ExecutionTemplate.to_size_t (count + 1)) (list_ ++ [id])
      end
  end.

(** [GetParentJobIds(list)]: the count returned and the list after the
    call; [list_] is the list before it. *)
Definition GetParentJobIds (e : ComplexJobEntry) (list_ : list job_id_t)
    : outcome (Z * list job_id_t) :=
  let '(ok, indices) := GetParentJobIndices (template_entry_ e) in
  if negb ok then AssertFail
  else collect_parents (inner_job_ids_ e) indices 0 [].

(** [GetJobForAssignment(list, max_num)] *)
Definition GetJobForAssignment {JobEntryPtr : Type} (e : ComplexJobEntry)
    (list_ : list JobEntryPtr) (max_num : Z) : Z * list JobEntryPtr :=
  (0%Z, []).
End entry.

End ComplexJob.

(** * Calls of the template manager as a transition system *)

Module TemplateCalls.
Import Template.

Section calls.
Context `{ops : TemplateEntryOps}.

Inductive call : Type :=
  | CallDetect (template_name : string)
  | CallFinalize (template_name : string)
  | CallInstantiate (template_name : string)
      (inner_job_ids outer_job_ids : list job_id_t)
      (parameters : list ParameterT) (parent_job_id : job_id_t)
  | CallAddComputeJob (template_name : string)
      (args : ComputeJobArgs GeometricRegion).

Definition call_name (c : call) : string :=
  match c with
  | CallDetect n | CallFinalize n | CallInstantiate n _ _ _ _
  | CallAddComputeJob n _ => n
  end.

Definition run_call (tm : TemplateManager ops) (c : call)
    : bool * TemplateManager ops :=
  match c with
  | CallDetect n => DetectNewTemplate tm n
  | CallFinalize n => FinalizeNewTemplate tm n
  | CallInstantiate n inner outer params parent =>
      InstantiateTemplate tm n inner outer params parent
  | CallAddComputeJob n args => AddComputeJobToTemplate tm n args
  end.

(** The state after a sequence of calls, whatever each returned. *)
Definition run_calls (tm : TemplateManager ops) (cs : list call)
    : TemplateManager ops :=
  foldl (λ tm c, (run_call tm c).2) tm cs.

(** [set_job_manager(job_manager)] *)
Definition set_job_manager (tm : TemplateManager ops)
    (job_manager : option JobManager) : TemplateManager ops :=
  {| template_map_ := template_map_ tm; job_manager_ := job_manager |}.
End calls.

(** A sequence of calls on [toy_manager]. *)
Definition toy_calls : list (@call toy_ops) :=
  [CallDetect "open"; CallFinalize "open";
   @CallInstantiate toy_ops "open" [21%N] [22%N] ["dt"] 1%N].

End TemplateCalls.

(** * Properties *)

(** A decidable proposition about closed terms, settled by evaluating
    its decision procedure. *)
Ltac by_computation := apply (bool_decide_unpack _); vm_compute; exact I.


(** ** The outcome monad *)

Lemma bind_Ok {A B} (f : A → outcome B) (m : outcome A) (b : B) :
  m ≫= f = Ok b ↔ ∃ a, m = Ok a ∧ f a = Ok b.
Proof. destruct m; simpl; split; try naive_solver. Qed.

Lemma assert_Ok (b : bool) (u : unit) : assert b = Ok u ↔ b = true.
Proof. destruct b, u; simpl; naive_solver. Qed.

(** ** Nodes *)

Lemma find_node_Some n e c : find_node n c = Some e → (n, e) ∈ c.
Proof.
  induction c as [|[m e'] c IH]; simpl; [done|].
  case_decide; intros; simplify_eq; [left | right; auto].
Qed.

Lemma find_node_None n c : find_node n c = None ↔ n ∉ c.*1.
Proof.
  induction c as [|[m e'] c IH]; simpl.
  - split; [intros _; apply not_elem_of_nil | done].
  - case_decide; subst; rewrite not_elem_of_cons; naive_solver.
Qed.

Lemma find_node_elem_of n e c : NoDup c.*1 → (n, e) ∈ c → find_node n c = Some e.
Proof.
  induction c as [|[m e'] c IH]; simpl; intros Hnd Hin.
  - by apply elem_of_nil in Hin.
  - apply NoDup_cons in Hnd as [Hm Hnd].
    apply elem_of_cons in Hin as [?|Hin]; simplify_eq.
    + by rewrite decide_True.
    + rewrite decide_False; [auto|].
      intros ->. apply Hm. apply list_elem_of_fmap. by exists (n, e).
Qed.

Lemma find_node_app n c1 c2 :
  find_node n (c1 ++ c2) =
    match find_node n c1 with Some e => Some e | None => find_node n c2 end.
Proof.
  induction c1 as [|[m e'] c1 IH]; simpl; [done|]. by case_decide.
Qed.

(** ** The backward scans *)

Lemma rscan_spec {A} (stop : A → bool) r p q :
  rscan stop r = (p, q) →
  r = p ++ q ∧ Forall (λ x, stop x = false) p ∧
  (∀ x, head q = Some x → stop x = true).
Proof.
  revert p q. induction r as [|x r IH]; simpl; intros p q Hs.
  - simplify_eq. by repeat split.
  - destruct (stop x) eqn:Hx.
    + simplify_eq. repeat split; [constructor|]. simpl. by intros ? [= <-].
    + destruct (rscan stop r) as [p' q'] eqn:Hr. simplify_eq.
      destruct (IH _ _ eq_refl) as (-> & Hp & Hq).
      repeat split; [by constructor | done].
Qed.

Lemma rscanM_app {A} (stop : A → outcome bool) p q :
  Forall (λ x, stop x = Ok false) p →
  (∀ x, head q = Some x → stop x = Ok true) →
  rscanM stop (p ++ q) = Ok (p, q).
Proof.
  intros Hp Hq. induction Hp as [|x p Hx Hp IH]; simpl.
  - destruct q as [|y q]; simpl; [done|]. by rewrite (Hq y).
  - by rewrite Hx; simpl; rewrite IH.
Qed.

(** ** Position chosen by the parent splice *)


Lemma InsertParentLdlEntry_chain_spec c n e :
  ∃ A B,
    c = A ++ B ∧
    InsertParentLdlEntry_chain c n e = (A ++ (n, e) :: B, head_iter B) ∧
    Forall (λ x, (version e < version x.2)%N) B ∧
    (∀ x, last A = Some x → (version x.2 ≤ version e)%N).
Proof.
  unfold InsertParentLdlEntry_chain.
  destruct (rscan _ (reverse c)) as [p q] eqn:Hs.
  apply rscan_spec in Hs as (Hr & Hp & Hq).
  exists (reverse q), (reverse p). split_and!.
  - by rewrite <-reverse_app, <-Hr, reverse_involutive.
  - done.
  - apply Forall_reverse. eapply Forall_impl; [exact Hp|].
    intros x Hx. simpl in Hx. apply bool_decide_eq_false in Hx. lia.
  - intros x. rewrite last_reverse. intros Hx.
    apply Hq in Hx. by apply bool_decide_eq_true in Hx.
Qed.

(** ** Version order under the chain operations *)

Lemma strictly_increasing_nondecreasing c :
  strictly_increasing c → nondecreasing c.
Proof.
  unfold strictly_increasing, nondecreasing.
  induction 1 as [|x l Hl IH Hx]; constructor; [done|].
  eapply Forall_impl; [exact Hx|]. intros; simpl in *; lia.
Qed.

Lemma nondecreasing_below_last c v :
  nondecreasing c →
  (∀ x, last c = Some x → (version x.2 ≤ v)%N) →
  Forall (λ x, (version x.2 ≤ v)%N) c.
Proof.
  intros Hs Hl. destruct c as [|x0 c0] using rev_ind; [constructor|].
  clear IHc0. rewrite last_snoc in Hl. specialize (Hl _ eq_refl).
  unfold nondecreasing, versions in Hs. rewrite fmap_app in Hs.
  apply StronglySorted_app in Hs as (Hle & _ & _).
  apply Forall_app. split; [|by repeat constructor].
  apply Forall_forall. intros y Hy.
  etrans; [|exact Hl].
  apply (Hle (version y.2) (version x0.2)).
  - apply list_elem_of_fmap. by exists y.
  - simpl. left.
Qed.

Lemma InsertParentLdlEntry_chain_nondecreasing c n e :
  nondecreasing c → nondecreasing (InsertParentLdlEntry_chain c n e).1.
Proof.
  intros Hs.
  destruct (InsertParentLdlEntry_chain_spec c n e) as (A & B & -> & -> & HB & HA).
  simpl. unfold nondecreasing, versions in *.
  rewrite fmap_app in Hs. apply StronglySorted_app in Hs as (HAB & HsA & HsB).
  pose proof (nondecreasing_below_last A (version e) HsA HA) as HA'.
  rewrite fmap_app, fmap_cons. apply StronglySorted_app_2; [|done|].
  - intros x1 x2 (y1 & -> & Hy1)%list_elem_of_fmap Hx2.
    rewrite Forall_forall in HA'. specialize (HA' _ Hy1).
    apply elem_of_cons in Hx2 as [->|(y2 & -> & Hy2)%list_elem_of_fmap]; [done|].
    rewrite Forall_forall in HB. specialize (HB _ Hy2). simpl in *. lia.
  - constructor; [done|]. apply Forall_fmap.
    eapply Forall_impl; [exact HB|]. intros; simpl in *. lia.
Qed.

Lemma InsertParentLdlEntry_chain_strictly_increasing c n e :
  strictly_increasing c → version e ∉ versions c →
  strictly_increasing (InsertParentLdlEntry_chain c n e).1.
Proof.
  intros Hs Hfresh.
  pose proof (strictly_increasing_nondecreasing _ Hs) as Hnd.
  destruct (InsertParentLdlEntry_chain_spec c n e) as (A & B & -> & -> & HB & HA).
  simpl. unfold strictly_increasing, nondecreasing, versions in *.
  rewrite fmap_app in Hs, Hnd, Hfresh.
  apply StronglySorted_app in Hs as (HAB & HsA & HsB).
  apply StronglySorted_app in Hnd as (_ & HndA & _).
  pose proof (nondecreasing_below_last A (version e) HndA HA) as HA'.
  rewrite fmap_app, fmap_cons. apply StronglySorted_app_2; [|done|].
  - intros x1 x2 Hx1 Hx2.
    assert (x1 < version e)%N as Hlt.
    { assert (x1 ≠ version e) by (intros ->; apply Hfresh, elem_of_app; by left).
      apply list_elem_of_fmap in Hx1 as (y1 & -> & Hy1).
      rewrite Forall_forall in HA'. specialize (HA' _ Hy1). simpl in *. lia. }
    apply elem_of_cons in Hx2 as [->|(y2 & -> & Hy2)%list_elem_of_fmap]; [done|].
    rewrite Forall_forall in HB. specialize (HB _ Hy2). simpl in *. lia.
  - constructor; [done|]. by apply Forall_fmap.
Qed.

Lemma AppendLdlEntry_Ok s j v d st b s' :
  AppendLdlEntry s j v d st = Ok (b, s') ↔
  ∃ x, last (chain_ s) = Some x ∧ (version x.2 < v)%N ∧ b = true ∧
    s' = {| ldid_ := ldid_ s;
            chain_ := chain_ s ++ [(next_node s, mkLdlEntry j v d st)];
            parents_index_ :=
              if st then parents_index_ s
              else parents_index_ s ++ [It (next_node s)];
            next_node := S (next_node s) |}.
Proof.
  unfold AppendLdlEntry, LastVersionInChain.
  destruct (last (chain_ s)) as [x|]; simpl; [|naive_solver].
  case_bool_decide; simpl; split.
  - intros [= <- <-]. by exists x.
  - intros (? & [= <-] & _ & -> & ->). done.
  - done.
  - intros (? & [= <-] & ? & _). lia.
Qed.

Lemma AppendLdlEntry_strictly_increasing s j v d st b s' :
  AppendLdlEntry s j v d st = Ok (b, s') →
  strictly_increasing (chain_ s) → strictly_increasing (chain_ s').
Proof.
  intros (x & Hx & Hv & _ & ->)%AppendLdlEntry_Ok Hs. simpl.
  pose proof (strictly_increasing_nondecreasing _ Hs) as Hnd.
  pose proof (nondecreasing_below_last (chain_ s) (version x.2) Hnd) as Hle.
  unfold strictly_increasing, versions in *. rewrite fmap_app.
  apply StronglySorted_app_2; [|done|by repeat constructor].
  intros x1 x2 (y1 & -> & Hy1)%list_elem_of_fmap ->%list_elem_of_singleton.
  simpl. rewrite Forall_forall in Hle.
  assert (version y1.2 ≤ version x.2)%N; [|lia].
  apply Hle; [|done]. intros ? ?; by simplify_eq.
Qed.

(** ** The parent index as a sequence of links into the chain *)

Lemma linked_targets c i it :
  linked c i → it ∈ i → ∃ n e, it = It n ∧ (n, e) ∈ c ∧ sterile e = false.
Proof.
  induction 1 as [c|x c i _ IH|n e c i He _ IH]; intros Hin.
  - by apply elem_of_nil in Hin.
  - destruct (IH Hin) as (m & e & -> & ? & ?).
    exists m, e. split_and!; [done| |done]. by right.
  - apply elem_of_cons in Hin as [->|Hin]; [|by apply IH].
    exists n, e. split_and!; [done| |done]. by left.
Qed.

Lemma linked_deref c i it :
  NoDup c.*1 → linked c i → it ∈ i →
  ∃ n e, it = It n ∧ (n, e) ∈ c ∧ deref c it = Ok e ∧ sterile e = false.
Proof.
  intros Hnd Hl Hin.
  destruct (linked_targets _ _ _ Hl Hin) as (n & e & -> & He & Hst).
  exists n, e. split_and!; try done.
  simpl. by rewrite (find_node_elem_of n e c Hnd He).
Qed.

Lemma linked_app_l A B i : linked B i → linked (A ++ B) i.
Proof. intros H. induction A as [|x A IH]; simpl; [done|by constructor]. Qed.

Lemma linked_app A B i1 i2 :
  linked A i1 → linked B i2 → linked (A ++ B) (i1 ++ i2).
Proof.
  intros HA HB. induction HA as [c|x c i _ IH|n e c i He _ IH]; simpl.
  - by apply linked_app_l.
  - by constructor.
  - by constructor.
Qed.

Lemma linked_app_r A B i : linked A i → linked (A ++ B) i.
Proof.
  intros H. rewrite <-(app_nil_r i). apply linked_app; [done|constructor].
Qed.

Lemma linked_split C i :
  linked C i → ∀ A B, C = A ++ B →
  ∃ i1 i2, i = i1 ++ i2 ∧ linked A i1 ∧ linked B i2.
Proof.
  induction 1 as [c|x c i Hl IH|n e c i He Hl IH]; intros A B HC.
  - exists [], []. split_and!; [done|constructor..].
  - destruct A as [|y A]; simpl in HC.
    + subst B. exists [], i. split_and!; [done|constructor|by constructor].
    + simplify_eq. destruct (IH A B eq_refl) as (i1 & i2 & -> & ? & ?).
      exists i1, i2. split_and!; [done|by constructor|done].
  - destruct A as [|y A]; simpl in HC.
    + subst B. exists [], (It n :: i).
      split_and!; [done|constructor|by constructor].
    + simplify_eq. destruct (IH ((n, e) :: A) B eq_refl) as (i1 & i2 & -> & ? & ?).
      exists (It n :: i1), i2. split_and!; [done|by constructor|done].
Qed.

Lemma erase_until_Ok c it c' :
  erase_until c it = Ok c' →
  ∃ older, c = older ++ c' ∧ head_iter c' = it ∧
    ∀ n, it = It n → n ∉ older.*1.
Proof.
  revert c'. induction c as [|[m e] c IH]; simpl; intros c'.
  - case_decide; [|done]. intros [= <-]. exists []. split_and!; try done.
    intros n ->. done.
  - case_decide as Hit.
    + intros [= <-]. exists []. split_and!; try done.
      intros; simpl. apply not_elem_of_nil.
    + intros (older & -> & Hh & Hn)%IH. exists ((m, e) :: older).
      split_and!; try done. intros n ->. simpl.
      apply not_elem_of_cons. split; [naive_solver|by apply Hn].
Qed.

Lemma linked_erase c pre it post :
  NoDup c.*1 → linked c (pre ++ it :: post) →
  ∃ c', erase_until c it = Ok c' ∧ linked c' (it :: post).
Proof.
  intros Hnd Hl. remember (pre ++ it :: post) as i eqn:Hi.
  revert pre Hi. induction Hl as [c|x c i Hl IH|n e c i He Hl IH]; intros pre Hi.
  - by destruct pre.
  - apply NoDup_cons in Hnd as [Hx Hnd].
    destruct (IH Hnd pre Hi) as (c' & Hc' & Hl').
    exists c'. split; [|done]. destruct x as [m e]. simpl.
    rewrite decide_False; [done|]. intros ->.
    apply erase_until_Ok in Hc' as (older & -> & Hh & _).
    destruct c' as [|[m' e'] c']; simpl in Hh; simplify_eq.
    apply Hx, (list_elem_of_fmap_2 fst (older ++ (m, e') :: c') (m, e')).
    apply elem_of_app. right. left.
  - destruct pre as [|it' pre]; simplify_eq/=.
    + exists ((n, e) :: c). rewrite decide_True by done.
      split; [done|by constructor].
    + by apply (IH Hnd pre).
Qed.

(** ** The scan of [CleanChain] *)

Lemma writers_nil c : writers c [] = ∅.
Proof. done. Qed.

Lemma writers_cons c it i e :
  deref c it = Ok e → writers c (it :: i) = {[ job_id e ]} ∪ writers c i.
Proof. intros He. unfold writers. simpl. by rewrite He. Qed.

Lemma writers_app c i1 i2 : writers c (i1 ++ i2) = writers c i1 ∪ writers c i2.
Proof. unfold writers. by rewrite omap_app, list_to_set_app_L. Qed.

Lemma writers_reverse c i : writers c (reverse i) = writers c i.
Proof.
  apply set_eq. intros j. unfold writers.
  rewrite !elem_of_list_to_set, !list_elem_of_omap.
  by setoid_rewrite elem_of_reverse.
Qed.

Lemma gset_size_0 (X : IDSet) : size X = 0 ↔ X = ∅.
Proof. rewrite size_empty_iff. by unfold_leibniz. Qed.

Lemma difference_empty_covered (X W : IDSet) (j : job_id_t) :
  X ∖ W ∖ {[ j ]} = ∅ → X ⊆ {[ j ]} ∪ W.
Proof.
  intros Hcov x Hx.
  destruct (decide (x = j)) as [->|Hne]; [set_solver|].
  destruct (decide (x ∈ W)); [set_solver|].
  assert (x ∈ (∅ : IDSet)) as []%not_elem_of_empty.
  rewrite <-Hcov. set_solver.
Qed.

Lemma clean_scan_spec c r : ∀ temp t p q,
  temp ≠ ∅ →
  clean_scan c temp r = Ok (t, (p, q)) →
  r = p ++ q ∧ temp ∖ writers c p ≠ ∅ ∧
  match q with
  | [] => t = temp ∖ writers c p
  | iit :: _ =>
      ∃ e, deref c iit = Ok e ∧ t = ∅ ∧
        temp ∖ writers c p ∖ {[ job_id e ]} = ∅
  end.
Proof.
  induction r as [|x r IH]; simpl; intros temp t p q Hne Hs.
  - simplify_eq. rewrite writers_nil. split_and!; [done|set_solver|set_solver].
  - apply bind_Ok in Hs as (e & He & Hs).
    case_decide as Hsz.
    + simplify_eq. apply gset_size_0 in Hsz.
      rewrite writers_nil. split_and!; [done|set_solver|].
      exists e. split_and!; [done|done|set_solver].
    + apply bind_Ok in Hs as ([t' [p' q']] & Hr & Hs). simplify_eq.
      rewrite gset_size_0 in Hsz.
      destruct (IH _ _ _ _ Hsz Hr) as (-> & Hne' & Hq).
      rewrite (writers_cons _ _ _ _ He).
      split_and!; [done|set_solver|].
      destruct q as [|iit q].
      * set_solver.
      * destruct Hq as (e' & ? & ? & ?). exists e'. split_and!; [done|done|set_solver].
Qed.

Lemma clean_scan_total c r : ∀ temp,
  Forall (λ it, ∃ e, deref c it = Ok e) r →
  ∃ res, clean_scan c temp r = Ok res.
Proof.
  induction r as [|x r IH]; simpl; intros temp Hr; [by eexists|].
  apply Forall_cons in Hr as [[e He] Hr]. rewrite He. simpl.
  case_decide; [by eexists|].
  destruct (IH (temp ∖ {[job_id e]}) Hr) as ([t [p q]] & ->). simpl. by eexists.
Qed.

Lemma erase_until_find n e c :
  find_node n c = Some e →
  ∃ older c', c = older ++ (n, e) :: c' ∧ (n ∉ older.*1) ∧
    erase_until c (It n) = Ok ((n, e) :: c').
Proof.
  induction c as [|[m e'] c IH]; simpl; [done|].
  case_decide as Hm.
  - intros [= ->]. subst m. exists [], c. rewrite decide_True by done.
    split_and!; [done|apply not_elem_of_nil|done].
  - intros Hf. apply IH in Hf as (older & c' & -> & Hn & Hc).
    exists ((m, e') :: older), c'. rewrite decide_False by naive_solver.
    split_and!; [done| |done]. simpl. apply not_elem_of_cons. by split.
Qed.

(** ** The check of lines 162-164 *)


Lemma check_parents_Ok c r u :
  check_parents c r = Ok u ↔ Forall (fine c) r.
Proof.
  destruct u. induction r as [|it r IH]; simpl.
  - split; [constructor|done].
  - rewrite Forall_cons, <-IH. unfold fine. split.
    + intros (e & He & (_ & Hst%assert_Ok & Hr)%bind_Ok)%bind_Ok.
      split; [|done]. exists e. split; [done|]. by destruct (sterile e).
    + intros [(e & -> & Hst) Hr]. simpl. by rewrite Hst.
Qed.

Lemma check_parents_app_fine c r1 r2 :
  Forall (fine c) r1 →
  check_parents c (r1 ++ r2) = check_parents c r2.
Proof.
  induction 1 as [|it r1 (e & He & Hst) _ IH]; simpl; [done|].
  by rewrite He; simpl; rewrite Hst.
Qed.

Lemma linked_fine c i : NoDup c.*1 → linked c i → Forall (fine c) i.
Proof.
  intros Hnd Hl. apply Forall_forall. intros it Hit.
  destruct (linked_deref _ _ _ Hnd Hl Hit) as (n & e & _ & _ & ? & ?).
  by exists e.
Qed.

(** ** Well-formedness of the chain after a splice *)

Lemma NoDup_insert_node (A B : Chain) (n : node) (e : LdlEntry) :
  NoDup (A ++ B).*1 → n ∉ (A ++ B).*1 → NoDup (A ++ (n, e) :: B).*1.
Proof.
  intros Hnd Hn. rewrite fmap_app, fmap_cons. simpl.
  rewrite <-Permutation_middle. rewrite <-fmap_app. by constructor.
Qed.

Lemma nondecreasing_app (A B : Chain) :
  nondecreasing (A ++ B) → nondecreasing A ∧ nondecreasing B.
Proof.
  unfold nondecreasing, versions. rewrite fmap_app.
  intros (_ & ? & ?)%StronglySorted_app. done.
Qed.

Lemma AppendLdlEntry_nondecreasing s j v d st b s' :
  AppendLdlEntry s j v d st = Ok (b, s') →
  nondecreasing (chain_ s) → nondecreasing (chain_ s').
Proof.
  intros (x & Hx & Hv & _ & ->)%AppendLdlEntry_Ok Hs. simpl.
  pose proof (nondecreasing_below_last (chain_ s) (version x.2) Hs) as Hle.
  unfold nondecreasing, versions in *. rewrite fmap_app.
  apply StronglySorted_app_2; [|done|by repeat constructor].
  intros x1 x2 (y1 & -> & Hy1)%list_elem_of_fmap ->%list_elem_of_singleton.
  simpl. rewrite Forall_forall in Hle.
  assert (version y1.2 ≤ version x.2)%N; [|lia].
  apply Hle; [|done]. intros ? ?; by simplify_eq.
Qed.

Lemma InsertParentLdlEntry_splice_spec s j v d :
  well_formed s →
  ∃ A B i1 i2,
    chain_ s = A ++ B ∧ parents_index_ s = i1 ++ i2 ∧
    linked A i1 ∧ linked B i2 ∧
    Forall (λ x, (version x.2 ≤ v)%N) A ∧
    Forall (λ x, (v < version x.2)%N) B ∧
    InsertParentLdlEntry_splice s j v d false =
      Ok {| ldid_ := ldid_ s;
            chain_ := A ++ (next_node s, mkLdlEntry j v d false) :: B;
            parents_index_ := i1 ++ head_iter B :: i2;
            next_node := S (next_node s) |}.
Proof.
  intros [Hnd Hfresh Hsorted Hlinked].
  set (e := mkLdlEntry j v d false).
  destruct (InsertParentLdlEntry_chain_spec (chain_ s) (next_node s) e)
    as (A & B & HAB & Hins & HB & HA).
  destruct (linked_split _ _ Hlinked A B HAB) as (i1 & i2 & Hi & HlA & HlB).
  rewrite HAB in Hsorted. apply nondecreasing_app in Hsorted as [HsA _].
  pose proof (nondecreasing_below_last A v HsA HA) as HA'.
  assert (NoDup (A ++ (next_node s, e) :: B).*1) as Hnd'.
  { apply NoDup_insert_node; rewrite <-HAB; [done|].
    intros Hin%Hfresh. lia. }
  exists A, B, i1, i2. split_and!; try done.
  unfold InsertParentLdlEntry_splice. simpl. fold e. rewrite Hins.
  rewrite Hi, reverse_app.
  rewrite rscanM_app; simpl; [by rewrite !reverse_involutive|..].
  - apply Forall_reverse, Forall_forall. intros it Hit.
    destruct (linked_targets _ _ _ HlB Hit) as (n & en & -> & Hn & _).
    simpl. rewrite (find_node_elem_of n en); [|done|]; simpl.
    + rewrite Forall_forall in HB. specialize (HB _ Hn). simpl in HB.
      f_equal. apply bool_decide_eq_false. lia.
    + apply elem_of_app. right. by right.
  - intros it. rewrite head_reverse. intros Hit%last_Some_elem_of.
    destruct (linked_targets _ _ _ HlA Hit) as (n & en & -> & Hn & _).
    simpl. rewrite (find_node_elem_of n en); [|done|]; simpl.
    + rewrite Forall_forall in HA'. specialize (HA' _ Hn). simpl in HA'.
      f_equal. by apply bool_decide_eq_true.
    + apply elem_of_app. by left.
Qed.

Lemma nondecreasing_insert (A B : Chain) n e :
  nondecreasing (A ++ B) →
  Forall (λ x, (version x.2 ≤ version e)%N) A →
  Forall (λ x, (version e < version x.2)%N) B →
  nondecreasing (A ++ (n, e) :: B).
Proof.
  unfold nondecreasing, versions. rewrite !fmap_app, fmap_cons.
  intros (_ & HsA & HsB)%StronglySorted_app HA HB.
  apply StronglySorted_app_2; [|done|].
  - intros x1 x2 (y1 & -> & Hy1)%list_elem_of_fmap Hx2.
    rewrite Forall_forall in HA. specialize (HA _ Hy1).
    apply elem_of_cons in Hx2 as [->|(y2 & -> & Hy2)%list_elem_of_fmap]; [done|].
    rewrite Forall_forall in HB. specialize (HB _ Hy2). simpl in *. lia.
  - constructor; [done|]. apply Forall_fmap.
    eapply Forall_impl; [exact HB|]. intros; simpl in *. lia.
Qed.

(** What [InsertParentLdlEntry] does on a well-formed lineage: the new
    node goes between [A] (versions up to [v]) and [B] (versions above
    [v]), and the index receives [it.base()], the iterator to the head
    of [B], not to the new node. *)
Lemma InsertParentLdlEntry_spec s j v d :
  well_formed s →
  ∃ A B i1 i2,
    chain_ s = A ++ B ∧ parents_index_ s = i1 ++ i2 ∧
    linked A i1 ∧ linked B i2 ∧
    Forall (λ x, (version x.2 ≤ v)%N) A ∧
    Forall (λ x, (v < version x.2)%N) B ∧
    InsertParentLdlEntry s j v d false =
      match B with
      | [] => Undefined
      | (n, en) :: _ =>
          if sterile en then AssertFail
          else Ok (true,
                   {| ldid_ := ldid_ s;
                      chain_ := A ++ (next_node s, mkLdlEntry j v d false) :: B;
                      parents_index_ := i1 ++ It n :: i2;
                      next_node := S (next_node s) |})
      end.
Proof.
  intros Hwf.
  destruct (InsertParentLdlEntry_splice_spec s j v d Hwf)
    as (A & B & i1 & i2 & HAB & Hi & HlA & HlB & HA & HB & Hsp).
  exists A, B, i1, i2. split_and!; try done.
  destruct Hwf as [Hnd Hfresh _ _].
  set (e := mkLdlEntry j v d false) in *.
  assert (NoDup (A ++ (next_node s, e) :: B).*1) as Hnd'.
  { apply NoDup_insert_node; rewrite <-HAB; [done|].
    intros Hin%Hfresh. lia. }
  assert (linked (A ++ (next_node s, e) :: B) i1) as Hl1 by by apply linked_app_r.
  assert (linked (A ++ (next_node s, e) :: B) i2) as Hl2.
  { apply linked_app_l. by constructor. }
  pose proof (linked_fine _ _ Hnd' Hl1) as Hf1.
  pose proof (linked_fine _ _ Hnd' Hl2) as Hf2.
  unfold InsertParentLdlEntry. rewrite Hsp. simpl.
  rewrite reverse_app, reverse_cons, <-app_assoc.
  rewrite check_parents_app_fine by by apply Forall_reverse.
  destruct B as [|[n en] B]; simpl; [done|].
  rewrite (find_node_elem_of n en); [|done|]; simpl.
  - destruct (sterile en); simpl; [done|].
    assert (check_parents (A ++ (next_node s, e) :: (n, en) :: B) (reverse i1)
            = Ok ()) as ->; [|done].
    by apply check_parents_Ok, Forall_reverse.
  - apply elem_of_app. right. right. left.
Qed.

(** ** Preservation of well-formedness *)

Lemma well_formed_new ldid : well_formed (new_lineage ldid).
Proof.
  split; simpl.
  - constructor.
  - intros n Hn. by apply elem_of_nil in Hn.
  - constructor.
  - constructor.
Qed.

Lemma AppendLdlEntry_well_formed s j v d st b s' :
  well_formed s → AppendLdlEntry s j v d st = Ok (b, s') → well_formed s'.
Proof.
  intros [Hnd Hfresh Hsorted Hlinked] Happ.
  pose proof (AppendLdlEntry_nondecreasing _ _ _ _ _ _ _ Happ Hsorted) as Hs'.
  apply AppendLdlEntry_Ok in Happ as (x & Hx & Hv & _ & ->).
  split; simpl in *; [| |done|].
  - rewrite <-(app_nil_r [_]). apply NoDup_insert_node; rewrite app_nil_r; [done|].
    intros Hin%Hfresh. lia.
  - intros n. rewrite fmap_app. simpl.
    intros [Hn%Hfresh | ->%list_elem_of_singleton]%elem_of_app; lia.
  - destruct st; [by apply linked_app_r|].
    apply linked_app; [done|]. constructor; [done|constructor].
Qed.

Lemma InsertParentLdlEntry_well_formed s j v d st b s' :
  well_formed s → InsertParentLdlEntry s j v d st = Ok (b, s') → well_formed s'.
Proof.
  intros Hwf Hins. destruct st; [done|].
  destruct (InsertParentLdlEntry_spec s j v d Hwf)
    as (A & B & i1 & i2 & HAB & Hi & HlA & HlB & HA & HB & Hsp).
  rewrite Hsp in Hins. clear Hsp. destruct Hwf as [Hnd Hfresh Hsorted _].
  assert (nondecreasing (A ++ (next_node s, mkLdlEntry j v d false) :: B)).
  { apply nondecreasing_insert; [by rewrite <-HAB|done..]. }
  destruct B as [|[n en] B]; [done|].
  destruct (sterile en) eqn:Hst; [done|]. simplify_eq.
  split; simpl.
  - apply NoDup_insert_node; rewrite <-HAB; [done|].
    intros Hin%Hfresh. lia.
  - intros m. rewrite fmap_app, fmap_cons, elem_of_app, elem_of_cons. simpl.
    rewrite HAB, fmap_app, fmap_cons in Hfresh.
    intros [Hm|[->|Hm]]; [|lia|].
    + assert (m < next_node s); [|lia]. apply Hfresh, elem_of_app. by left.
    + assert (m < next_node s); [|lia]. apply Hfresh, elem_of_app. by right.
  - done.
  - apply linked_app; [done|]. constructor. by constructor.
Qed.

Lemma CleanChain_Ok_inv s live b s' :
  CleanChain s live = Ok (b, s') →
  b = true ∧
  ((live = ∅ ∧ chain_ s' = [] ∧ parents_index_ s' = []) ∨
   (live ≠ ∅ ∧ ∃ pre iit post,
      parents_index_ s = pre ++ iit :: post ∧
      erase_until (chain_ s) iit = Ok (chain_ s') ∧
      parents_index_ s' = iit :: post ∧
      returns (deref (chain_ s) iit) ∧
      live ⊆ writers (chain_ s) (iit :: post) ∧
      ¬ live ⊆ writers (chain_ s) post)) ∧
  ldid_ s' = ldid_ s ∧ next_node s' = next_node s.
Proof.
  unfold CleanChain. case_decide as Hsz.
  - intros [= <- <-]. apply gset_size_0 in Hsz. split_and!; try done. by left.
  - rewrite gset_size_0 in Hsz.
    intros ([t [p q]] & Hscan & (_ & Ht%assert_Ok & Hq)%bind_Ok)%bind_Ok.
    apply bool_decide_eq_true, gset_size_0 in Ht. subst t.
    destruct q as [|iit q]; [done|].
    apply bind_Ok in Hq as (c' & Hc' & [= <- <-]).
    apply clean_scan_spec in Hscan as (Hr & Hp & e & He & _ & Hcov); [|done].
    split_and!; try done. right. split; [done|].
    exists (reverse q), iit, (reverse p). split_and!; try done.
    + apply (inj reverse). by rewrite reverse_app, reverse_cons,
        !reverse_involutive, <-app_assoc.
    + by rewrite He.
    + rewrite (writers_cons _ _ _ _ He), writers_reverse.
      by apply difference_empty_covered.
    + rewrite writers_reverse. clear -Hp. set_solver.
Qed.

Lemma CleanChain_well_formed s live b s' :
  well_formed s → CleanChain s live = Ok (b, s') → well_formed s'.
Proof.
  intros [Hnd Hfresh Hsorted Hlinked] Hcc.
  apply CleanChain_Ok_inv in Hcc as (_ & Hcases & _ & Hnext).
  destruct Hcases as [(_ & Hc & Hi)|(_ & pre & iit & post & Hidx & Her & Hi & _)].
  - split; rewrite ?Hc, ?Hi; simpl.
    + constructor.
    + intros n Hn. by apply elem_of_nil in Hn.
    + constructor.
    + constructor.
  - rewrite Hidx in Hlinked.
    destruct (linked_erase _ _ _ _ Hnd Hlinked) as (c' & Hc' & Hl').
    rewrite Her in Hc'. injection Hc' as <-.
    apply erase_until_Ok in Her as (older & Hc & _ & _).
    split; rewrite ?Hi, ?Hnext.
    + rewrite Hc, fmap_app in Hnd. by apply NoDup_app in Hnd as (_ & _ & ?).
    + intros n Hn. apply Hfresh. rewrite Hc, fmap_app, elem_of_app. by right.
    + rewrite Hc in Hsorted. by apply nondecreasing_app in Hsorted as [_ ?].
    + done.
Qed.

Lemma run_op_well_formed s o b s' :
  well_formed s → run_op s o = Ok (b, s') → well_formed s'.
Proof.
  destruct o; simpl;
    eauto using AppendLdlEntry_well_formed, InsertParentLdlEntry_well_formed,
      CleanChain_well_formed.
Qed.

Lemma well_formed_parents_nonsterile s :
  well_formed s → parents_nonsterile s.
Proof.
  intros [Hnd _ _ Hl] it Hit.
  destruct (linked_deref _ _ _ Hnd Hl Hit) as (n & e & _ & _ & ? & ?).
  by exists e.
Qed.

(** ** [CleanChain] on a non-empty live set *)



Lemma returns_Ok {A} (o : outcome A) : returns o ↔ ∃ a, o = Ok a.
Proof. destruct o; simpl; naive_solver. Qed.

Lemma well_formed_valid_index s : well_formed s → valid_index s.
Proof.
  intros [Hnd _ _ Hl]. apply Forall_forall. intros it Hit.
  destruct (linked_deref _ _ _ Hnd Hl Hit) as (n & e & _ & _ & -> & _). done.
Qed.

Lemma writers_subseteq c i1 i2 : writers c i2 ⊆ writers c (i1 ++ i2).
Proof. rewrite writers_app. set_solver. Qed.

Lemma CleanChain_spec s live :
  live ≠ ∅ → valid_index s →
  live ⊆ writers (chain_ s) (parents_index_ s) →
  ∃ pre n e post older c',
    parents_index_ s = pre ++ It n :: post ∧
    chain_ s = older ++ (n, e) :: c' ∧ (n ∉ older.*1) ∧
    job_id e ∈ live ∧
    live ⊆ writers (chain_ s) (It n :: post) ∧
    ¬ live ⊆ writers (chain_ s) post ∧
    CleanChain s live =
      Ok (true, {| ldid_ := ldid_ s;
                   chain_ := (n, e) :: c';
                   parents_index_ := It n :: post;
                   next_node := next_node s |}).
Proof.
  intros Hne Hvalid Hlive. unfold CleanChain.
  rewrite decide_False by by rewrite gset_size_0.
  destruct (clean_scan_total (chain_ s) (reverse (parents_index_ s)) live)
    as ([t [p q]] & Hscan).
  { apply Forall_reverse. eapply Forall_impl; [exact Hvalid|].
    intros it. by rewrite returns_Ok. }
  rewrite Hscan. simpl.
  apply clean_scan_spec in Hscan as (Hr & Hp & Hq); [|done].
  destruct q as [|iit q].
  { exfalso. apply Hp. rewrite app_nil_r in Hr. rewrite <-Hr, writers_reverse.
    set_solver. }
  destruct Hq as (e & He & -> & Hcov).
  rewrite bool_decide_eq_true_2 by done. simpl.
  destruct iit as [n|]; [|done]. simpl in He.
  destruct (find_node n (chain_ s)) as [e'|] eqn:Hfind; [|done].
  injection He as ->.
  destruct (erase_until_find _ _ _ Hfind) as (older & c' & Hc & Hn & Her).
  rewrite Her. simpl.
  assert (deref (chain_ s) (It n) = Ok e) as He by (simpl; by rewrite Hfind).
  exists (reverse q), n, e, (reverse p), older, c'. split_and!; try done.
  - apply (inj reverse). by rewrite reverse_app, reverse_cons,
      !reverse_involutive, <-app_assoc.
  - assert (∃ x, x ∈ live ∖ writers (chain_ s) p) as [x Hx].
    { apply set_choose_L. done. }
    assert (x = job_id e); [|set_solver].
    destruct (decide (x = job_id e)); [done|]. exfalso.
    assert (x ∈ (∅ : IDSet)) as []%not_elem_of_empty.
    rewrite <-Hcov. set_solver.
  - rewrite (writers_cons _ _ _ _ He), writers_reverse.
    by apply difference_empty_covered.
  - rewrite writers_reverse. clear -Hp. set_solver.
Qed.

Lemma CleanChain_absent s live :
  live ≠ ∅ → valid_index s →
  ¬ live ⊆ writers (chain_ s) (parents_index_ s) →
  CleanChain s live = AssertFail.
Proof.
  intros Hne Hvalid Hlive. unfold CleanChain.
  rewrite decide_False by by rewrite gset_size_0.
  destruct (clean_scan_total (chain_ s) (reverse (parents_index_ s)) live)
    as ([t [p q]] & Hscan).
  { apply Forall_reverse. eapply Forall_impl; [exact Hvalid|].
    intros it. by rewrite returns_Ok. }
  rewrite Hscan. simpl.
  apply clean_scan_spec in Hscan as (Hr & Hp & Hq); [|done].
  destruct q as [|iit q].
  - subst t. rewrite bool_decide_eq_false_2; [done|]. by rewrite gset_size_0.
  - exfalso. destruct Hq as (e & He & -> & Hcov). apply Hlive.
    assert (parents_index_ s = reverse q ++ iit :: reverse p) as ->.
    { apply (inj reverse). by rewrite reverse_app, reverse_cons,
        !reverse_involutive, <-app_assoc. }
    etrans; [|apply writers_subseteq].
    rewrite (writers_cons _ _ _ _ He), writers_reverse.
    by apply difference_empty_covered.
Qed.

(** ** Writers and sample lineages *)

Lemma writers_elem_of c i j :
  j ∈ writers c i ↔ ∃ it e, it ∈ i ∧ deref c it = Ok e ∧ job_id e = j.
Proof.
  unfold writers. rewrite elem_of_list_to_set, list_elem_of_omap. split.
  - intros (it & Hit & He). destruct (deref c it) as [e| |] eqn:Hd; [|done..].
    exists it, e. by simplify_eq.
  - intros (it & e & Hit & He & <-). exists it. by rewrite He.
Qed.

Lemma two_writers_well_formed : well_formed two_writers.
Proof.
  split; simpl.
  - by_computation.
  - intros n Hn. repeat (apply elem_of_cons in Hn as [->|Hn]; [lia|]).
    by apply elem_of_nil in Hn.
  - unfold nondecreasing. by_computation.
  - constructor; [done|]. constructor. constructor; [done|]. constructor.
Qed.

Lemma with_sterile_well_formed : well_formed with_sterile.
Proof.
  split; simpl.
  - by_computation.
  - intros n Hn. repeat (apply elem_of_cons in Hn as [->|Hn]; [lia|]).
    by apply elem_of_nil in Hn.
  - unfold nondecreasing. by_computation.
  - constructor; [done|]. do 3 constructor; [done|]. constructor.
Qed.

(** ** Supplements on the parent splice *)

Lemma InsertParentLdlEntry_Ok_chain s j v d st b s' :
  InsertParentLdlEntry s j v d st = Ok (b, s') →
  b = true ∧
  chain_ s' =
    (InsertParentLdlEntry_chain (chain_ s) (next_node s)
       (mkLdlEntry j v d st)).1.
Proof.
  unfold InsertParentLdlEntry, InsertParentLdlEntry_splice.
  intros (s1 & Hsp & (_ & _ & [= <- <-])%bind_Ok)%bind_Ok.
  apply bind_Ok in Hsp as (_ & _ & Hsp).
  destruct (InsertParentLdlEntry_chain _ _ _) as [c' base].
  apply bind_Ok in Hsp as ([ip iq] & _ & [= <-]). done.
Qed.

(** On a well-formed lineage the index never receives an iterator to
    the node the splice has just created. *)
Lemma InsertParentLdlEntry_never_links_new_entry s j v d st b s' :
  well_formed s →
  InsertParentLdlEntry s j v d st = Ok (b, s') →
  (next_node s, mkLdlEntry j v d st) ∈ chain_ s' ∧
  It (next_node s) ∉ parents_index_ s'.
Proof.
  intros Hwf Hins. destruct st; [done|].
  destruct (InsertParentLdlEntry_spec s j v d Hwf)
    as (A & B & i1 & i2 & HAB & Hi & HlA & HlB & _ & _ & Hsp).
  rewrite Hsp in Hins. clear Hsp.
  assert (∀ i C, linked C i → (∀ x, x ∈ C → x ∈ chain_ s) →
            It (next_node s) ∉ i) as Hold.
  { intros i C Hl HC Hin.
    destruct (linked_targets _ _ _ Hl Hin) as (n & e & [= <-] & He & _).
    pose proof (wf_fresh _ Hwf (next_node s)) as Hlt.
    assert (next_node s < next_node s); [|lia].
    apply Hlt, list_elem_of_fmap. exists (next_node s, e). split; [done|].
    by apply HC. }
  destruct B as [|[n en] B]; [done|].
  destruct (sterile en) eqn:Hst; [done|]. simplify_eq. simpl. split.
  - apply elem_of_app. right. left.
  - intros [Hin|[Hin|Hin]%elem_of_cons]%elem_of_app.
    + revert Hin. apply (Hold _ _ HlA). intros x Hx.
      rewrite HAB. apply elem_of_app. by left.
    + injection Hin as Hn.
      pose proof (wf_fresh _ Hwf n) as Hlt.
      assert (n < next_node s); [|lia].
      apply Hlt. rewrite HAB, fmap_app, fmap_cons. simpl.
      apply elem_of_app. right. left.
    + revert Hin. apply (Hold _ _ HlB). intros x Hx.
      rewrite HAB. apply elem_of_app. by right.
Qed.

(** On a lineage built by [LogicalDataLineage(ldid)] both calls run
    into undefined behaviour when the assertions are compiled in:
    [AppendLdlEntry] reads the last version of an empty chain, and the
    check of [InsertParentLdlEntry] dereferences [end()]. *)
Lemma new_lineage_first_entry ldid j v d st :
  AppendLdlEntry (new_lineage ldid) j v d st = Undefined ∧
  InsertParentLdlEntry (new_lineage ldid) j v d false = Undefined.
Proof. split; reflexivity. Qed.

(** A splice above every version of the chain: the chain is the one
    [AppendLdlEntry] builds, the index receives [end()], and the check
    of lines 162-164 dereferences it. *)
Lemma InsertParentLdlEntry_above_all_versions s j v d :
  well_formed s →
  Forall (λ x, (version x.2 < v)%N) (chain_ s) →
  InsertParentLdlEntry_splice s j v d false =
    Ok {| ldid_ := ldid_ s;
          chain_ := chain_ s ++ [(next_node s, mkLdlEntry j v d false)];
          parents_index_ := parents_index_ s ++ [End];
          next_node := S (next_node s) |} ∧
  InsertParentLdlEntry s j v d false = Undefined.
Proof.
  intros Hwf Hall.
  destruct (InsertParentLdlEntry_spec s j v d Hwf)
    as (A & B & i1 & i2 & HAB & Hi & HlA & HlB & _ & HB & Hsp).
  destruct (InsertParentLdlEntry_splice_spec s j v d Hwf)
    as (A' & B' & i1' & i2' & HAB' & Hi' & _ & HlB' & _ & HB' & Hsp').
  assert (∀ C D : Chain, chain_ s = C ++ D →
            Forall (λ x, (v < version x.2)%N) D → D = []) as Hnil.
  { clear -Hall. intros C D HC HD. destruct D as [|x D]; [done|]. exfalso.
    rewrite HC in Hall. apply Forall_app in Hall as [_ Hall].
    apply Forall_cons in Hall as [? _]. apply Forall_cons in HD as [? _]. lia. }
  split.
  - rewrite Hsp'. pose proof (Hnil _ _ HAB' HB') as ->.
    inv HlB'. rewrite app_nil_r in HAB', Hi'. by rewrite HAB', Hi'.
  - rewrite Hsp. by rewrite (Hnil _ _ HAB HB).
Qed.

(** * The lineage ledger against the specification *)

(** C1, as the code has it.  [AppendLdlEntry] returns exactly when the
    chain is non-empty and the new version is above the last one, and
    then keeps the versions strictly increasing.  [InsertParentLdlEntry]
    puts the new entry behind the last entry, counted from the tail,
    whose version is at most the new one; it keeps the versions
    non-decreasing, and strictly increasing when the new version does
    not occur in the chain yet. *)
Theorem lineage_operations_keep_version_order
    (s : LogicalDataLineage) (j : job_id_t) (v : data_version_t)
    (d : job_depth_t) (st : bool) :
  (∀ b s', AppendLdlEntry s j v d st = Ok (b, s') →
     (∃ x, last (chain_ s) = Some x ∧ (version x.2 < v)%N) ∧
     (strictly_increasing (chain_ s) → strictly_increasing (chain_ s'))) ∧
  (∀ x, last (chain_ s) = Some x → (version x.2 < v)%N →
     ∃ s', AppendLdlEntry s j v d st = Ok (true, s')) ∧
  (∀ b s', InsertParentLdlEntry s j v d st = Ok (b, s') →
     (∃ A B, chain_ s = A ++ B ∧
        chain_ s' = A ++ (next_node s, mkLdlEntry j v d st) :: B ∧
        Forall (λ x, (v < version x.2)%N) B ∧
        (∀ x, last A = Some x → (version x.2 ≤ v)%N)) ∧
     (nondecreasing (chain_ s) → nondecreasing (chain_ s')) ∧
     (strictly_increasing (chain_ s) → v ∉ versions (chain_ s) →
        strictly_increasing (chain_ s'))).
Proof.
  split_and!.
  - intros b s' Happ. split.
    + apply AppendLdlEntry_Ok in Happ as (x & ? & ? & _). by exists x.
    + by eapply AppendLdlEntry_strictly_increasing.
  - intros x Hx Hv. eexists. apply AppendLdlEntry_Ok. by exists x.
  - intros b s' [_ ->]%InsertParentLdlEntry_Ok_chain. split_and!.
    + destruct (InsertParentLdlEntry_chain_spec (chain_ s) (next_node s)
                  (mkLdlEntry j v d st)) as (A & B & HAB & -> & HB & HA).
      by exists A, B.
    + apply InsertParentLdlEntry_chain_nondecreasing.
    + intros Hs Hv.
      by apply (InsertParentLdlEntry_chain_strictly_increasing (chain_ s)
                  (next_node s) (mkLdlEntry j v d st)).
Qed.

Lemma lineage_operations_keep_version_order_witness :
  strictly_increasing
    [(0, e1); (2, mkLdlEntry 12%N 2%N 0%N false); (1, e3)].
Proof.
  refine (proj2 (proj2 (proj2 (proj2
    (lineage_operations_keep_version_order two_writers 12%N 2%N 0%N false))
      true
      {| ldid_ := 7%N;
         chain_ := [(0, e1); (2, mkLdlEntry 12%N 2%N 0%N false); (1, e3)];
         parents_index_ := [It 0; It 1; It 1];
         next_node := 3 |} _)) _ _).
  - vm_compute. reflexivity.
  - by_computation.
  - by_computation.
Defined.

(** C1, as the specification words it, fails: a parent splice at a
    version the chain already holds returns and leaves that version
    twice in the chain. *)
Lemma InsertParentLdlEntry_repeats_a_version :
  strictly_increasing (chain_ two_writers) ∧
  ∃ s', InsertParentLdlEntry two_writers 12%N 1%N 0%N false = Ok (true, s') ∧
        versions (chain_ s') = [1; 1; 3]%N ∧
        ¬ strictly_increasing (chain_ s').
Proof.
  split; [by_computation|]. eexists. split; [vm_compute; reflexivity|].
  split; [reflexivity|]. by_computation.
Qed.

(** C2.  Let [live] be a non-empty live-parent set.  Whenever
    [CleanChain] returns, the parent index that remains is the tail of
    the old one that starts at the entry of the oldest live writer (the
    entry at which the scan from the tail has covered [live]; the
    entries behind it do not cover [live]), and the chain that remains
    starts at the node this entry refers to: every node before it is
    erased.  The call returns, with [true], when every iterator of the
    index can be dereferenced and every member of [live] is a writer in
    the index. *)
Theorem CleanChain_trims_to_oldest_live_parent
    (s : LogicalDataLineage) (live : IDSet) :
  live ≠ ∅ →
  (∀ b s', CleanChain s live = Ok (b, s') →
     ∃ n e post c',
       b = true ∧
       parents_index_ s' = It n :: post ∧
       chain_ s' = (n, e) :: c' ∧
       job_id e ∈ live ∧
       (∃ pre, parents_index_ s = pre ++ It n :: post) ∧
       (∃ older, chain_ s = older ++ (n, e) :: c' ∧ n ∉ older.*1) ∧
       live ⊆ writers (chain_ s) (It n :: post) ∧
       ¬ live ⊆ writers (chain_ s) post) ∧
  (valid_index s → live ⊆ writers (chain_ s) (parents_index_ s) →
     ∃ s', CleanChain s live = Ok (true, s')).
Proof.
  intros Hne. split.
  - intros b s' Hcc.
    apply CleanChain_Ok_inv in Hcc as (-> & [(? & _)|(_ & Hcase)] & _); [done|].
    destruct Hcase as (pre & iit & post & Hidx & Her & Hidx' & Hd & Hcov & Hmin).
    destruct iit as [n|]; [|done].
    apply erase_until_Ok in Her as (older & Hc & Hh & Hn).
    destruct (chain_ s') as [|[m e] c'] eqn:Hc'; [done|].
    simpl in Hh. injection Hh as ->.
    assert (deref (chain_ s) (It n) = Ok e) as He.
    { simpl. rewrite Hc, find_node_app.
      rewrite (proj2 (find_node_None n older)) by by apply Hn.
      simpl. by rewrite decide_True. }
    exists n, e, post, c'. split_and!; try done.
    + rewrite (writers_cons _ _ _ _ He) in Hcov.
      destruct (decide (job_id e ∈ live)) as [|Hnot]; [done|].
      exfalso. apply Hmin. clear -Hcov Hnot. set_solver.
    + by exists pre.
    + exists older. split; [done|]. by apply Hn.
  - intros Hvalid Hlive.
    destruct (CleanChain_spec s live Hne Hvalid Hlive)
      as (pre & n & e & post & older & c' & _ & _ & _ & _ & _ & _ & Hok).
    by eexists.
Qed.

Lemma CleanChain_trims_to_oldest_live_parent_witness :
  ∃ s', CleanChain with_sterile {[ 13%N ]} = Ok (true, s').
Proof.
  refine (proj2 (CleanChain_trims_to_oldest_live_parent
                   with_sterile {[ 13%N ]} _) _ _).
  - by_computation.
  - repeat constructor.
  - by_computation.
Defined.

(** C3.  The parent splice at the failing input: the new entry of job
    12 becomes node 2 of the chain, and the index receives a second
    iterator to node 1, the entry of job 13 behind it; no index entry
    refers to the new node. *)
Theorem InsertParentLdlEntry_index_refers_to_successor :
  InsertParentLdlEntry two_writers 12%N 2%N 0%N false =
    Ok (true,
        {| ldid_ := 7%N;
           chain_ := [(0, e1); (2, mkLdlEntry 12%N 2%N 0%N false); (1, e3)];
           parents_index_ := [It 0; It 1; It 1];
           next_node := 3 |}) ∧
  (It 2 ∉ [It 0; It 1; It 1]) ∧
  deref [(0, e1); (2, mkLdlEntry 12%N 2%N 0%N false); (1, e3)] (It 1) = Ok e3.
Proof.
  split_and!; [vm_compute; reflexivity| by_computation | reflexivity].
Qed.

(** C4.  A parent splice above every version of the chain against
    [AppendLdlEntry] at the same input: both build the same chain, but
    [AppendLdlEntry] gives the index an iterator to the new node 2 and
    returns, while the splice gives it [end()], which the check of
    lines 162-164 then dereferences. *)
Theorem InsertParentLdlEntry_at_tail_differs_from_Append :
  ∃ sA sI,
    AppendLdlEntry two_writers 12%N 5%N 0%N false = Ok (true, sA) ∧
    InsertParentLdlEntry_splice two_writers 12%N 5%N 0%N false = Ok sI ∧
    chain_ sI = chain_ sA ∧
    parents_index_ sA = [It 0; It 1; It 2] ∧
    parents_index_ sI = [It 0; It 1; End] ∧
    InsertParentLdlEntry two_writers 12%N 5%N 0%N false = Undefined.
Proof.
  do 2 eexists. split_and!; [vm_compute; reflexivity..| |]; reflexivity.
Qed.

(** C5.  The parent index after a parent splice above every version
    of the chain: line 159 stores [end()] at the tail of the index, an
    iterator that refers to no lineage entry.  Compiled with [NDEBUG]
    the call returns [true] in this state; with the assertions compiled
    in, line 163 dereferences [end()].  In the same way a splice in
    front of a sterile entry stores an iterator to that sterile entry:
    with [NDEBUG] the call returns with it in the index, otherwise the
    assertion of line 163 stops the call. *)
Theorem InsertParentLdlEntry_stores_end_in_parent_index :
  (∃ sI,
     InsertParentLdlEntry_splice two_writers 12%N 5%N 0%N false = Ok sI ∧
     InsertParentLdlEntry_NDEBUG two_writers 12%N 5%N 0%N false
       = Ok (true, sI) ∧
     parents_index_ sI = [It 0; It 1; End] ∧
     deref (chain_ sI) End = Undefined ∧
     ¬ parents_nonsterile sI ∧
     InsertParentLdlEntry two_writers 12%N 5%N 0%N false = Undefined) ∧
  (∃ sS,
     InsertParentLdlEntry_NDEBUG with_sterile 15%N 1%N 0%N false
       = Ok (true, sS) ∧
     parents_index_ sS = [It 0; It 1; It 2] ∧
     deref (chain_ sS) (It 1) = Ok e2s ∧ sterile e2s = true ∧
     ¬ parents_nonsterile sS ∧
     InsertParentLdlEntry with_sterile 15%N 1%N 0%N false = AssertFail).
Proof.
  split.
  - eexists. split_and!; [vm_compute; reflexivity..| | | |];
      [reflexivity|reflexivity| |reflexivity].
    intros Hns. destruct (Hns End) as (e & He & _); [|done].
    simpl. do 2 right. left.
  - eexists. split_and!; [vm_compute; reflexivity|..];
      [reflexivity|reflexivity|reflexivity| |reflexivity].
    intros Hns. destruct (Hns (It 1)) as (e & He & Hst).
    { simpl. right. left. }
    simpl in He. injection He as <-. done.
Qed.

(** C8.  For every lineage state, [CleanChain] applied to the empty
    live-parent set returns [true] and leaves both the chain and the
    parent index empty. *)
Theorem CleanChain_empty_live_set_clears (s : LogicalDataLineage) :
  ∃ s', CleanChain s ∅ = Ok (true, s') ∧
        chain_ s' = [] ∧ parents_index_ s' = [].
Proof. eexists. split; [reflexivity|done]. Qed.

(** C9, as the code has it.  [LastVersionInChain] has a value exactly
    on a non-empty chain, and [AppendLdlEntry] on an empty chain is
    undefined.  After an [AppendLdlEntry] that returned the value is
    the appended version, and every call of [AppendLdlEntry],
    [InsertParentLdlEntry] or [CleanChain] that returns leaves a
    non-empty chain, except [CleanChain] with the empty live-parent
    set. *)
Theorem LastVersionInChain_defined_on_nonempty_chain :
  (∀ s, LastVersionInChain s = None ↔ chain_ s = []) ∧
  (∀ s j v d st, chain_ s = [] → AppendLdlEntry s j v d st = Undefined) ∧
  (∀ s j v d st b s', AppendLdlEntry s j v d st = Ok (b, s') →
     LastVersionInChain s' = Some v) ∧
  (∀ s o b s', o ≠ OpCleanChain ∅ → run_op s o = Ok (b, s') →
     LastVersionInChain s' ≠ None).
Proof.
  assert (∀ s, LastVersionInChain s = None ↔ chain_ s = []) as Hnone.
  { intros s. unfold LastVersionInChain.
    rewrite fmap_None. apply last_None. }
  split_and!; [done|..].
  - intros s j v d st Hc. unfold AppendLdlEntry.
    by rewrite (proj2 (Hnone s) Hc).
  - intros s j v d st b s' (x & _ & _ & _ & ->)%AppendLdlEntry_Ok.
    unfold LastVersionInChain. simpl. by rewrite last_snoc.
  - intros s o b s' Ho Hrun. rewrite Hnone. destruct o as [j v d st|j v d st|live];
      simpl in Hrun.
    + apply AppendLdlEntry_Ok in Hrun as (x & _ & _ & _ & ->). simpl.
      by destruct (chain_ s).
    + apply InsertParentLdlEntry_Ok_chain in Hrun as [_ ->].
      destruct (InsertParentLdlEntry_chain_spec (chain_ s) (next_node s)
                  (mkLdlEntry j v d st)) as (A & B & _ & -> & _).
      simpl. by destruct A.
    + apply CleanChain_Ok_inv in Hrun as (_ & [(-> & _)|(_ & Hcase)] & _); [done|].
      destruct Hcase as (pre & iit & post & _ & Her & _ & Hd & _).
      apply erase_until_Ok in Her as (older & _ & Hh & _).
      intros Hc. rewrite Hc in Hh. simpl in Hh. by subst iit.
Qed.

Lemma LastVersionInChain_defined_on_nonempty_chain_witness :
  LastVersionInChain
    {| ldid_ := 7%N;
       chain_ := [(0, e1); (2, mkLdlEntry 12%N 2%N 0%N false); (1, e3)];
       parents_index_ := [It 0; It 1; It 1];
       next_node := 3 |} ≠ None.
Proof.
  refine (proj2 (proj2 (proj2 LastVersionInChain_defined_on_nonempty_chain))
            two_writers (OpInsertParent 12%N 2%N 0%N false) true _ _ _).
  - discriminate.
  - vm_compute. reflexivity.
Defined.

(** C9, as the specification words it, fails: after an entry has been
    appended, [CleanChain] with the empty live-parent set empties the
    chain, and the next [AppendLdlEntry] reads the last version of an
    empty chain. *)
Lemma LastVersionInChain_undefined_after_append_and_clear :
  ∃ s1 s2,
    AppendLdlEntry two_writers 12%N 5%N 0%N false = Ok (true, s1) ∧
    CleanChain s1 ∅ = Ok (true, s2) ∧
    LastVersionInChain s2 = None ∧
    AppendLdlEntry s2 14%N 6%N 0%N false = Undefined.
Proof.
  do 2 eexists. split_and!; [vm_compute; reflexivity..|]; reflexivity.
Qed.

(** C10.  [CleanChain] with a non-empty live-parent set returns only
    when every job id of the set occurs as a writer in the parent index
    (on a well-formed lineage these are non-sterile writers of the
    chain); when some live parent is absent the scan runs through the
    whole index, the working set stays non-empty and the call stops in
    the assertion: no [false] is returned. *)
Theorem CleanChain_absent_live_parent_aborts
    (s : LogicalDataLineage) (live : IDSet) :
  live ≠ ∅ →
  (∀ b s', CleanChain s live = Ok (b, s') →
     live ⊆ writers (chain_ s) (parents_index_ s)) ∧
  (valid_index s → ¬ live ⊆ writers (chain_ s) (parents_index_ s) →
     CleanChain s live = AssertFail) ∧
  (well_formed s → ∀ j, j ∈ writers (chain_ s) (parents_index_ s) →
     ∃ n e, (n, e) ∈ chain_ s ∧ job_id e = j ∧ sterile e = false).
Proof.
  intros Hne. split_and!.
  - intros b s' Hcc.
    apply CleanChain_Ok_inv in Hcc as (_ & [(? & _)|(_ & Hcase)] & _); [done|].
    destruct Hcase as (pre & iit & post & -> & _ & _ & _ & Hcov & _).
    etrans; [exact Hcov|]. apply writers_subseteq.
  - by apply CleanChain_absent.
  - intros [Hnd _ _ Hl] j (it & e & Hit & He & <-)%writers_elem_of.
    destruct (linked_deref _ _ _ Hnd Hl Hit) as (n & e' & _ & Hin & He' & Hst).
    rewrite He in He'. injection He' as <-. by exists n, e.
Qed.

Lemma CleanChain_absent_live_parent_aborts_witness :
  CleanChain with_sterile {[ 12%N; 13%N ]} = AssertFail.
Proof.
  refine (proj1 (proj2 (CleanChain_absent_live_parent_aborts
                          with_sterile {[ 12%N; 13%N ]} _)) _ _).
  - by_computation.
  - repeat constructor.
  - by_computation.
Defined.

(** * The template manager against the specification *)

(** C6.  A template-manager operation called in the wrong state
    returns [false] and leaves the template map and the job manager as
    they were: [DetectNewTemplate] on a finalized template;
    [FinalizeNewTemplate] and [AddComputeJobToTemplate] on a name that
    has not been detected; [AddComputeJobToTemplate] on a finalized
    template; [InstantiateTemplate] on a name that has not been
    detected or on a template that is not finalized, so that no complex
    job reaches the job manager. *)
Theorem template_operations_refuse_in_wrong_state
    `{ops : Template.TemplateEntryOps}
    (tm : Template.TemplateManager ops) (name : string) :
  (∀ te, Template.template_map_ tm !! name = Some te →
     Template.finalized te = true →
     Template.DetectNewTemplate tm name = (false, tm) ∧
     ∀ args, Template.AddComputeJobToTemplate tm name args = (false, tm)) ∧
  (Template.template_map_ tm !! name = None →
     Template.FinalizeNewTemplate tm name = (false, tm) ∧
     (∀ args, Template.AddComputeJobToTemplate tm name args = (false, tm)) ∧
     ∀ inner outer params parent,
       Template.InstantiateTemplate tm name inner outer params parent
       = (false, tm)) ∧
  (∀ te, Template.template_map_ tm !! name = Some te →
     Template.finalized te = false →
     ∀ inner outer params parent,
       Template.InstantiateTemplate tm name inner outer params parent
       = (false, tm)).
Proof.
  split_and!.
  - intros te Hte Hfin. split.
    + unfold Template.DetectNewTemplate. by rewrite Hte, Hfin.
    + intros args. unfold Template.AddComputeJobToTemplate.
      rewrite Hte, Hfin. by destruct (Template.job_manager_ tm).
  - intros Hnone. split_and!.
    + unfold Template.FinalizeNewTemplate. by rewrite Hnone.
    + intros args. unfold Template.AddComputeJobToTemplate. by rewrite Hnone.
    + intros. unfold Template.InstantiateTemplate. by rewrite Hnone.
  - intros te Hte Hfin inner outer params parent.
    unfold Template.InstantiateTemplate.
    rewrite Hte, Hfin. by destruct (Template.job_manager_ tm).
Qed.

Lemma template_operations_refuse_in_wrong_state_witness :
  Template.DetectNewTemplate Template.toy_manager "frozen"
    = (false, Template.toy_manager) ∧
  Template.AddComputeJobToTemplate Template.toy_manager "frozen"
    Template.toy_args = (false, Template.toy_manager) ∧
  Template.FinalizeNewTemplate Template.toy_manager "absent"
    = (false, Template.toy_manager) ∧
  Template.AddComputeJobToTemplate Template.toy_manager "absent"
    Template.toy_args = (false, Template.toy_manager) ∧
  Template.InstantiateTemplate Template.toy_manager "absent"
    [21%N] [22%N] ["dt"] 1%N = (false, Template.toy_manager) ∧
  Template.InstantiateTemplate Template.toy_manager "open"
    [21%N] [22%N] ["dt"] 1%N = (false, Template.toy_manager).
Proof.
  pose proof (template_operations_refuse_in_wrong_state
                Template.toy_manager "frozen") as (Hfrozen & _ & _).
  pose proof (template_operations_refuse_in_wrong_state
                Template.toy_manager "absent") as (_ & Habsent & _).
  pose proof (template_operations_refuse_in_wrong_state
                Template.toy_manager "open") as (_ & _ & Hopen).
  destruct (Hfrozen (true, ["advect"])) as [Hdetect Hadd];
    [by vm_compute|reflexivity|].
  destruct Habsent as (Hfinalize & Hadd' & Hinst); [by vm_compute|].
  split_and!; [done|apply Hadd|done|apply Hadd'|apply Hinst|].
  apply (Hopen (false, ["advect"])); [by vm_compute|reflexivity].
Defined.

(** * The execution template against the specification *)

(** C7.  The dependency count a job template is built with, as long as
    the count fits [size_t]: the size of the before set plus one for a
    remote-copy-receive template, the size of the before set plus the
    number of [to_phy_id_ptrs] for a mega-receive template, and the
    size of the before set for compute, combine, local-copy and
    remote-copy-send templates. *)
Theorem dependency_num_by_kind
    (job : ExecutionTemplate.JobPtr) (job_id_ptr : ExecutionTemplate.JobIdPtr)
    (before_set : IDSet)
    (read write scratch reduce : gset ExecutionTemplate.PhyIdPtr)
    (to_phy_id_ptrs : list ExecutionTemplate.PhyIdPtr)
    (from to : ExecutionTemplate.PhyIdPtr)
    (future : ExecutionTemplate.JobIdPtr) (param_index : Z) :
  (Z.of_nat (size before_set) + Z.of_nat (length to_phy_id_ptrs) + 1
     < ExecutionTemplate.size_t_modulus)%Z →
  let dependency_num t := ExecutionTemplate.dependency_num_ t in
  dependency_num
    (ExecutionTemplate.rcr_base
       (ExecutionTemplate.RemoteCopyReceiveJobTemplate_ctor
          job job_id_ptr to before_set))
    = Some (Z.of_nat (size before_set) + 1)%Z ∧
  dependency_num
    (ExecutionTemplate.mega_rcr_base
       (ExecutionTemplate.MegaRCRJobTemplate_ctor
          job job_id_ptr to_phy_id_ptrs before_set))
    = Some (Z.of_nat (size before_set) + Z.of_nat (length to_phy_id_ptrs))%Z ∧
  dependency_num
    (ExecutionTemplate.compute_base
       (ExecutionTemplate.ComputeJobTemplate_ctor
          job job_id_ptr read write scratch reduce before_set future
          param_index))
    = Some (Z.of_nat (size before_set)) ∧
  dependency_num
    (ExecutionTemplate.combine_base
       (ExecutionTemplate.CombineJobTemplate_ctor
          job job_id_ptr scratch reduce before_set))
    = Some (Z.of_nat (size before_set)) ∧
  dependency_num
    (ExecutionTemplate.lc_base
       (ExecutionTemplate.LocalCopyJobTemplate_ctor
          job job_id_ptr from to before_set))
    = Some (Z.of_nat (size before_set)) ∧
  dependency_num
    (ExecutionTemplate.rcs_base
       (ExecutionTemplate.RemoteCopySendJobTemplate_ctor
          job job_id_ptr from before_set))
    = Some (Z.of_nat (size before_set)).
Proof.
  intros Hfit. simpl.
  unfold ExecutionTemplate.to_size_t, ExecutionTemplate.IDSet_size,
    ExecutionTemplate.vector_size.
  rewrite !Z.mod_small by lia. done.
Qed.

Lemma dependency_num_by_kind_witness :
  ExecutionTemplate.dependency_num_
    (ExecutionTemplate.rcr_base
       (ExecutionTemplate.RemoteCopyReceiveJobTemplate_ctor
          1%N 31%N 5%N {[ 11%N; 13%N ]})) = Some 3%Z ∧
  ExecutionTemplate.dependency_num_
    (ExecutionTemplate.mega_rcr_base
       (ExecutionTemplate.MegaRCRJobTemplate_ctor
          1%N 31%N [5%N; 6%N; 7%N] {[ 11%N; 13%N ]})) = Some 5%Z.
Proof.
  pose proof (dependency_num_by_kind 1%N 31%N {[ 11%N; 13%N ]}
                ∅ ∅ ∅ ∅ [5%N; 6%N; 7%N] 4%N 5%N 0%N 0%Z)
    as H.
  destruct H as (Hrcr & Hmega & _); [by vm_compute|].
  split; [exact Hrcr|exact Hmega].
Defined.

(** * Further properties of the lineage ledger *)


(** Every return of [InsertParentLdlEntry], with the assertions
    compiled in, is a return of the function compiled without them. *)
Lemma InsertParentLdlEntry_NDEBUG_covers s j v d st b s' :
  InsertParentLdlEntry s j v d st = Ok (b, s') →
  InsertParentLdlEntry_NDEBUG s j v d st = Ok (b, s').
Proof.
  unfold InsertParentLdlEntry, InsertParentLdlEntry_splice,
    InsertParentLdlEntry_NDEBUG.
  intros (s1 & Hsp & (_ & _ & [= <- <-])%bind_Ok)%bind_Ok.
  apply bind_Ok in Hsp as (_ & _ & Hsp).
  destruct (InsertParentLdlEntry_chain _ _ _) as [c' base].
  apply bind_Ok in Hsp as ([ip iq] & -> & [= <-]). done.
Qed.




(** X2.  On a non-empty chain ordered by version, [AppendLdlEntry]
    returns exactly when the new version is above every version of the
    chain; otherwise it stops in its assertion and returns nothing. *)
Theorem AppendLdlEntry_returns_iff_above_all
    (s : LogicalDataLineage) (j : job_id_t) (v : data_version_t)
    (d : job_depth_t) (st : bool) :
  chain_ s ≠ [] → nondecreasing (chain_ s) →
  ((∃ s', AppendLdlEntry s j v d st = Ok (true, s')) ↔
     Forall (λ x, (version x.2 < v)%N) (chain_ s)) ∧
  (¬ Forall (λ x, (version x.2 < v)%N) (chain_ s) →
     AppendLdlEntry s j v d st = AssertFail).
Proof.
  intros Hne Hs.
  destruct (last (chain_ s)) as [x|] eqn:Hlast; [|by apply last_None in Hlast].
  assert ((version x.2 < v)%N ↔ Forall (λ x, (version x.2 < v)%N) (chain_ s))
    as Hall.
  { split.
    - intros Hv.
      pose proof (nondecreasing_below_last (chain_ s) (version x.2) Hs) as Hle.
      eapply Forall_impl; [apply Hle|].
      + intros y Hy. by simplify_eq.
      + intros y Hy. simpl in *. lia.
    - intros Hf. rewrite Forall_forall in Hf. apply Hf.
      by apply last_Some_elem_of. }
  split.
  - rewrite <-Hall. split.
    + intros [s' (y & Hy & Hv & _)%AppendLdlEntry_Ok]. by simplify_eq.
    + intros Hv. eexists. apply AppendLdlEntry_Ok. by exists x.
  - rewrite <-Hall. intros Hv. unfold AppendLdlEntry, LastVersionInChain.
    rewrite Hlast. simpl. by rewrite bool_decide_eq_false_2.
Qed.

Lemma AppendLdlEntry_returns_iff_above_all_witness :
  AppendLdlEntry two_writers 12%N 3%N 0%N false = AssertFail.
Proof.
  refine (proj2 (AppendLdlEntry_returns_iff_above_all
                   two_writers 12%N 3%N 0%N false _ _) _).
  - discriminate.
  - exact (wf_sorted _ two_writers_well_formed).
  - by_computation.
Defined.

(** X3.  After an [AppendLdlEntry] of a non-sterile entry that
    returned, on a well-formed lineage, the last entry of the parent
    index dereferences to the entry just appended, and every iterator
    that could be dereferenced before still leads to the same entry. *)
Theorem AppendLdlEntry_links_new_entry
    (s : LogicalDataLineage) (j : job_id_t) (v : data_version_t)
    (d : job_depth_t) (b : bool) (s' : LogicalDataLineage) :
  well_formed s →
  AppendLdlEntry s j v d false = Ok (b, s') →
  (∃ it, last (parents_index_ s') = Some it ∧
         deref (chain_ s') it = Ok (mkLdlEntry j v d false)) ∧
  (∀ it e, deref (chain_ s) it = Ok e → deref (chain_ s') it = Ok e).
Proof.
  intros Hwf (x & _ & _ & _ & ->)%AppendLdlEntry_Ok. simpl. split.
  - exists (It (next_node s)). split; [by rewrite last_snoc|].
    simpl. rewrite find_node_app.
    rewrite (proj2 (find_node_None (next_node s) (chain_ s))).
    + simpl. by rewrite decide_True.
    + intros Hin%(wf_fresh _ Hwf). lia.
  - intros [n|] e; [|done]. simpl. rewrite find_node_app.
    by destruct (find_node n (chain_ s)).
Qed.

Lemma AppendLdlEntry_links_new_entry_witness :
  ∃ it, last [It 0; It 1; It 2] = Some it ∧
        deref [(0, e1); (1, e3); (2, mkLdlEntry 12%N 5%N 0%N false)] it
        = Ok (mkLdlEntry 12%N 5%N 0%N false).
Proof.
  refine (proj1 (AppendLdlEntry_links_new_entry two_writers 12%N 5%N 0%N true
    {| ldid_ := 7%N;
       chain_ := [(0, e1); (1, e3); (2, mkLdlEntry 12%N 5%N 0%N false)];
       parents_index_ := [It 0; It 1; It 2];
       next_node := 3 |} two_writers_well_formed _)).
  vm_compute. reflexivity.
Defined.

Lemma erase_until_app_fresh (older c : Chain) n :
  n ∉ older.*1 → erase_until (older ++ c) (It n) = erase_until c (It n).
Proof.
  induction older as [|[m e] older IH]; simpl; [done|].
  intros [Hm Hn]%not_elem_of_cons. rewrite decide_False by naive_solver. auto.
Qed.

Lemma clean_scan_head c (temp : IDSet) it r e :
  deref c it = Ok e → temp ∖ {[ job_id e ]} = ∅ →
  clean_scan c temp (it :: r) = Ok (∅, ([], it :: r)).
Proof.
  intros He Hempty. cbn [clean_scan]. rewrite He. cbn [mbind outcome_bind].
  rewrite decide_True by by rewrite gset_size_0. by rewrite Hempty.
Qed.

(** X4.  Appending a non-sterile entry for job [j] and then pruning
    with the live set [{j}] leaves a chain of that one entry and an
    index of the one iterator to it. *)
Theorem AppendLdlEntry_then_CleanChain
    (s : LogicalDataLineage) (j : job_id_t) (v : data_version_t)
    (d : job_depth_t) (b : bool) (s1 : LogicalDataLineage) :
  well_formed s →
  AppendLdlEntry s j v d false = Ok (b, s1) →
  CleanChain s1 {[ j ]} =
    Ok (true,
        {| ldid_ := ldid_ s;
           chain_ := [(next_node s, mkLdlEntry j v d false)];
           parents_index_ := [It (next_node s)];
           next_node := S (next_node s) |}).
Proof.
  intros Hwf (x & _ & _ & _ & ->)%AppendLdlEntry_Ok.
  assert (next_node s ∉ (chain_ s).*1) as Hfresh.
  { intros Hin%(wf_fresh _ Hwf). lia. }
  assert (deref (chain_ s ++ [(next_node s, mkLdlEntry j v d false)])
            (It (next_node s))
          = Ok (mkLdlEntry j v d false)) as Hd.
  { simpl. rewrite find_node_app, (proj2 (find_node_None _ _) Hfresh).
    simpl. by rewrite decide_True. }
  unfold CleanChain. cbn [chain_ parents_index_ ldid_ next_node].
  rewrite decide_False by (rewrite size_singleton; lia).
  rewrite reverse_snoc.
  rewrite (clean_scan_head _ _ _ _ _ Hd) by (simpl; set_solver).
  cbn [mbind outcome_bind].
  rewrite bool_decide_eq_true_2 by apply size_empty.
  cbn [assert mbind outcome_bind].
  rewrite erase_until_app_fresh by done. simpl.
  by rewrite decide_True.
Qed.

Lemma AppendLdlEntry_then_CleanChain_witness :
  CleanChain
    {| ldid_ := 7%N;
       chain_ := [(0, e1); (1, e3); (2, mkLdlEntry 12%N 5%N 0%N false)];
       parents_index_ := [It 0; It 1; It 2];
       next_node := 3 |} {[ 12%N ]} =
    Ok (true,
        {| ldid_ := 7%N;
           chain_ := [(2, mkLdlEntry 12%N 5%N 0%N false)];
           parents_index_ := [It 2];
           next_node := 3 |}).
Proof.
  refine (AppendLdlEntry_then_CleanChain two_writers 12%N 5%N 0%N true _
            two_writers_well_formed _).
  vm_compute. reflexivity.
Defined.

Lemma split_unique {X} (P Q : X → Prop) (A B A' B' : list X) :
  (∀ x, P x → Q x → False) →
  A ++ B = A' ++ B' →
  Forall P A → Forall Q B → Forall P A' → Forall Q B' →
  A = A' ∧ B = B'.
Proof.
  intros Hexcl. revert A'. induction A as [|x A IH]; intros A' Heq HA HB HA' HB'.
  - destruct A' as [|y A']; [done|]. simpl in Heq. subst B. exfalso.
    apply Forall_cons in HA' as [? _]. apply Forall_cons in HB as [? _]. eauto.
  - destruct A' as [|y A']; simpl in Heq.
    + subst B'. exfalso.
      apply Forall_cons in HA as [? _]. apply Forall_cons in HB' as [? _]. eauto.
    + injection Heq as -> Heq.
      apply Forall_cons in HA as [_ HA]. apply Forall_cons in HA' as [_ HA'].
      destruct (IH A' Heq HA HB HA' HB') as [-> ->]. done.
Qed.

(** X5.  What [InsertParentLdlEntry] does with a non-sterile argument
    on a well-formed lineage, by the entry that follows the place of
    the splice ([A] holds the versions up to [v], [B] the versions
    above): with no such entry the call runs into the dereference of
    [end()]; when that entry is sterile the call stops in the assertion
    of line 163; otherwise it returns [true], the new node stands
    between [A] and [B], and the index has an iterator to the head of
    [B] between its entries for versions up to [v] and those above. *)
Theorem InsertParentLdlEntry_outcome
    (s : LogicalDataLineage) (j : job_id_t) (v : data_version_t)
    (d : job_depth_t) (A B : Chain) :
  well_formed s → chain_ s = A ++ B →
  Forall (λ x, (version x.2 ≤ v)%N) A →
  Forall (λ x, (v < version x.2)%N) B →
  match B with
  | [] => InsertParentLdlEntry s j v d false = Undefined
  | (n, en) :: _ =>
      if sterile en then InsertParentLdlEntry s j v d false = AssertFail
      else
        ∃ i1 i2,
          parents_index_ s = i1 ++ i2 ∧
          Forall (λ it, ∃ e, deref (chain_ s) it = Ok e ∧ (version e ≤ v)%N) i1 ∧
          Forall (λ it, ∃ e, deref (chain_ s) it = Ok e ∧ (v < version e)%N) i2 ∧
          InsertParentLdlEntry s j v d false =
            Ok (true,
                {| ldid_ := ldid_ s;
                   chain_ := A ++ (next_node s, mkLdlEntry j v d false) :: B;
                   parents_index_ := i1 ++ It n :: i2;
                   next_node := S (next_node s) |})
  end.
Proof.
  intros Hwf HAB HA HB.
  destruct (InsertParentLdlEntry_spec s j v d Hwf)
    as (A' & B' & i1 & i2 & HAB' & Hi & HlA & HlB & HA' & HB' & Hsp).
  destruct (split_unique (λ x, (version x.2 ≤ v)%N) (λ x, (v < version x.2)%N)
              A B A' B') as [<- <-]; try done.
  { intros x ? ?. lia. }
  { by rewrite <-HAB. }
  rewrite Hsp. destruct B as [|[n en] B]; [done|].
  destruct (sterile en); [done|].
  exists i1, i2. split_and!; try done.
  - apply Forall_forall. intros it Hit.
    destruct (linked_targets _ _ _ HlA Hit) as (m & e & -> & He & _).
    exists e. split.
    + simpl. rewrite (find_node_elem_of m e); [done|apply Hwf|].
      rewrite HAB. apply elem_of_app. by left.
    + rewrite Forall_forall in HA. by apply (HA (m, e)).
  - apply Forall_forall. intros it Hit.
    destruct (linked_targets _ _ _ HlB Hit) as (m & e & -> & He & _).
    exists e. split.
    + simpl. rewrite (find_node_elem_of m e); [done|apply Hwf|].
      rewrite HAB. apply elem_of_app. by right.
    + rewrite Forall_forall in HB. by apply (HB (m, e)).
Qed.

Lemma InsertParentLdlEntry_outcome_witness :
  InsertParentLdlEntry with_sterile 15%N 1%N 0%N false = AssertFail.
Proof.
  refine (InsertParentLdlEntry_outcome with_sterile 15%N 1%N 0%N
            [(0, e1)] [(1, e2s); (2, e3)] with_sterile_well_formed _ _ _).
  - reflexivity.
  - by_computation.
  - by_computation.
Defined.

Lemma clean_scan_ext c c' r : ∀ temp,
  (∀ it, it ∈ r → deref c it = deref c' it) →
  clean_scan c temp r = clean_scan c' temp r.
Proof.
  induction r as [|x r IH]; intros temp Hext; [done|].
  cbn [clean_scan]. rewrite <-(Hext x) by left.
  destruct (deref c x) as [e| |]; [|done..]. cbn [mbind outcome_bind].
  case_decide; [done|]. rewrite IH; [done|].
  intros it Hit. apply Hext. by right.
Qed.

Lemma clean_scan_stop c r : ∀ temp t p iit q,
  clean_scan c temp r = Ok (t, (p, iit :: q)) →
  clean_scan c temp (p ++ [iit]) = Ok (t, (p, [iit])).
Proof.
  induction r as [|x r IH]; intros temp t p iit q; [done|].
  cbn [clean_scan]. intros (e & He & Hs)%bind_Ok.
  case_decide as Hsz.
  - simplify_eq. cbn [app clean_scan]. rewrite He. cbn [mbind outcome_bind].
    by rewrite decide_True.
  - apply bind_Ok in Hs as ([t' [p' q']] & Hr & Hs). simplify_eq.
    cbn [app clean_scan]. rewrite He. cbn [mbind outcome_bind].
    rewrite decide_False by done. by rewrite (IH _ _ _ _ _ Hr).
Qed.

Lemma CleanChain_Ok_scan s live b s' :
  live ≠ ∅ → CleanChain s live = Ok (b, s') →
  ∃ p iit q,
    clean_scan (chain_ s) live (reverse (parents_index_ s))
      = Ok (∅, (p, iit :: q)) ∧
    erase_until (chain_ s) iit = Ok (chain_ s') ∧
    s' = {| ldid_ := ldid_ s; chain_ := chain_ s';
            parents_index_ := iit :: reverse p;
            next_node := next_node s |}.
Proof.
  intros Hne. unfold CleanChain.
  rewrite decide_False by by rewrite gset_size_0.
  intros ([t [p q]] & Hscan & (_ & Ht%assert_Ok & Hq)%bind_Ok)%bind_Ok.
  apply bool_decide_eq_true, gset_size_0 in Ht. subst t.
  destruct q as [|iit q]; [done|].
  apply bind_Ok in Hq as (c' & Hc' & [= <- <-]).
  by exists p, iit, q.
Qed.

(** X6.  Pruning is idempotent: on a well-formed lineage, when
    [CleanChain] has returned for a live set, a second call with the
    same live set returns [true] and changes nothing. *)
Theorem CleanChain_idempotent
    (s : LogicalDataLineage) (live : IDSet) (b : bool)
    (s' : LogicalDataLineage) :
  well_formed s → CleanChain s live = Ok (b, s') →
  CleanChain s' live = Ok (true, s').
Proof.
  intros Hwf Hcc.
  pose proof (CleanChain_well_formed _ _ _ _ Hwf Hcc) as Hwf'.
  destruct (decide (live = ∅)) as [->|Hne].
  { unfold CleanChain in *. rewrite decide_True in * by done.
    by simplify_eq. }
  destruct (CleanChain_Ok_scan _ _ _ _ Hne Hcc) as (p & iit & q & Hscan & Her & Hs').
  pose proof (erase_until_Ok _ _ _ Her) as (older & Hc & Hh & _).
  assert (∀ it, it ∈ p ++ [iit] → deref (chain_ s') it = deref (chain_ s) it)
    as Hext.
  { intros it Hit.
    assert (it ∈ parents_index_ s') as Hit'.
    { rewrite Hs'. simpl. apply elem_of_app in Hit as [Hit|Hit%list_elem_of_singleton].
      - right. by apply elem_of_reverse.
      - subst. left. }
    destruct (linked_deref _ _ _ (wf_nodup _ Hwf') (wf_linked _ Hwf') Hit')
      as (n & e & -> & He & -> & _).
    simpl. rewrite (find_node_elem_of n e); [done|apply Hwf|].
    rewrite Hc. apply elem_of_app. by right. }
  apply clean_scan_stop in Hscan.
  rewrite <-(clean_scan_ext (chain_ s')) in Hscan by done.
  unfold CleanChain. rewrite decide_False by by rewrite gset_size_0.
  assert (parents_index_ s' = iit :: reverse p) as Hidx by by rewrite Hs'.
  rewrite Hidx, reverse_cons, reverse_involutive, Hscan.
  cbn [mbind outcome_bind].
  rewrite bool_decide_eq_true_2 by apply size_empty.
  cbn [assert mbind outcome_bind].
  assert (erase_until (chain_ s') iit = Ok (chain_ s')) as ->.
  { destruct (chain_ s') as [|[n e] c'] eqn:Hc'; simpl in Hh; subst iit.
    - done.
    - simpl. by rewrite decide_True. }
  cbn [mbind outcome_bind]. rewrite <-Hidx. by destruct s'.
Qed.

Lemma CleanChain_idempotent_witness :
  CleanChain
    {| ldid_ := 7%N; chain_ := [(2, e3)]; parents_index_ := [It 2];
       next_node := 3 |} {[ 13%N ]} =
    Ok (true,
        {| ldid_ := 7%N; chain_ := [(2, e3)]; parents_index_ := [It 2];
           next_node := 3 |}).
Proof.
  refine (CleanChain_idempotent with_sterile {[ 13%N ]} true _
            with_sterile_well_formed _).
  vm_compute. reflexivity.
Defined.

Lemma writers_suffix c (i1 i2 : Index) :
  i1 `suffix_of` i2 → writers c i1 ⊆ writers c i2.
Proof. intros [k ->]. apply writers_subseteq. Qed.

(** X7.  Pruning is monotone in the live set: on a well-formed
    lineage, when [CleanChain] returns for [live1] and for a larger set
    [live2], what the call with [live1] keeps of the index and of the
    chain is a tail of what the call with [live2] keeps. *)
Theorem CleanChain_monotone
    (s : LogicalDataLineage) (live1 live2 : IDSet)
    (b1 b2 : bool) (s1 s2 : LogicalDataLineage) :
  well_formed s → live1 ⊆ live2 →
  CleanChain s live1 = Ok (b1, s1) →
  CleanChain s live2 = Ok (b2, s2) →
  parents_index_ s1 `suffix_of` parents_index_ s2 ∧
  chain_ s1 `suffix_of` chain_ s2.
Proof.
  intros Hwf Hsub Hc1 Hc2.
  pose proof (CleanChain_well_formed _ _ _ _ Hwf Hc2) as Hwf2.
  apply CleanChain_Ok_inv in Hc1 as (_ & Hcase1 & _).
  apply CleanChain_Ok_inv in Hc2 as (_ & Hcase2 & _).
  destruct Hcase1 as [(_ & -> & ->)|(Hne1 & pre1 & it1 & post1 & Hi1 & He1 & -> & _ & Hcov1 & Hmin1)].
  { split; apply suffix_nil. }
  destruct Hcase2 as [(-> & _)|(_ & pre2 & it2 & post2 & Hi2 & He2 & Hidx2 & _ & Hcov2 & _)].
  { exfalso. apply Hne1. set_solver. }
  assert (it1 :: post1 `suffix_of` it2 :: post2) as Hsuf.
  { destruct (suffix_weak_total (it1 :: post1) (it2 :: post2) (parents_index_ s))
      as [?|Hrev]; [by exists pre1|by exists pre2|done|].
    apply suffix_cons_inv in Hrev as [[= <- <-]|Hrev]; [done|].
    exfalso. apply Hmin1. etrans; [exact Hsub|]. etrans; [exact Hcov2|].
    by apply writers_suffix. }
  rewrite Hidx2. split; [done|].
  assert (it1 ∈ parents_index_ s2) as Hin.
  { rewrite Hidx2. destruct Hsuf as [k ->]. apply elem_of_app. right. left. }
  destruct (linked_targets _ _ _ (wf_linked _ Hwf2) Hin) as (n & e & -> & He & _).
  apply erase_until_Ok in He2 as (older2 & Hc & _ & _).
  rewrite Hc, erase_until_app_fresh in He1.
  - apply erase_until_Ok in He1 as (older1 & -> & _). by exists older1.
  - pose proof (wf_nodup _ Hwf) as Hnd. rewrite Hc, fmap_app in Hnd.
    apply NoDup_app in Hnd as (_ & Hdisj & _). intros Hn.
    apply (Hdisj _ Hn). apply list_elem_of_fmap. by exists (n, e).
Qed.

Lemma CleanChain_monotone_witness :
  [It 2] `suffix_of` [It 0; It 2] ∧
  [(2, e3)] `suffix_of` [(0, e1); (1, e2s); (2, e3)].
Proof.
  refine (CleanChain_monotone with_sterile {[ 13%N ]} {[ 11%N; 13%N ]}
            true true
            {| ldid_ := 7%N; chain_ := [(2, e3)]; parents_index_ := [It 2];
               next_node := 3 |}
            {| ldid_ := 7%N; chain_ := [(0, e1); (1, e2s); (2, e3)];
               parents_index_ := [It 0; It 2]; next_node := 3 |}
            with_sterile_well_formed _ _ _).
  - by_computation.
  - vm_compute. reflexivity.
  - vm_compute. reflexivity.
Defined.

(** * Further properties of the template manager *)

Section template_calls.
Import Template TemplateCalls.
Context `{ops : TemplateEntryOps}.

Lemma set_entry_lookup (tm : TemplateManager ops) name te n :
  template_map_ (set_entry tm name te) !! n =
    if decide (name = n) then Some te else template_map_ tm !! n.
Proof. unfold set_entry. simpl. apply lookup_insert. Qed.

Lemma run_call_lookup_ne (tm : TemplateManager ops) c n :
  n ≠ call_name c →
  template_map_ (run_call tm c).2 !! n = template_map_ tm !! n.
Proof.
  intros Hn.
  destruct c as [name|name|name inner outer params parent|name args];
    simpl in *.
  - unfold DetectNewTemplate.
    destruct (template_map_ tm !! name) as [te|]; simpl.
    + destruct (finalized te); simpl; [done|].
      destruct (CleanPartiallyFilledTemplate te) as [[] te']; simpl;
        by rewrite lookup_insert_ne.
    + by rewrite lookup_insert_ne.
  - unfold FinalizeNewTemplate.
    destruct (template_map_ tm !! name) as [te|]; simpl; [|done].
    destruct (Finalize te) as [b te']. simpl. by rewrite lookup_insert_ne.
  - unfold InstantiateTemplate.
    destruct (template_map_ tm !! name) as [te|]; simpl; [|done].
    destruct (job_manager_ tm) as [jm|]; simpl; [|done].
    destruct (finalized te); simpl; [|done].
    destruct (Instantiate _ _ _ _ _ _) as [b [te' jm']]. simpl.
    by rewrite lookup_insert_ne.
  - unfold AddComputeJobToTemplate.
    destruct (template_map_ tm !! name) as [te|]; simpl; [|done].
    destruct (job_manager_ tm) as [jm|]; simpl; [|done].
    destruct (finalized te); simpl; [done|].
    destruct (AddComputeJob args te) as [b te']. simpl.
    by rewrite lookup_insert_ne.
Qed.

Lemma run_call_lookup_eq (tm : TemplateManager ops) c :
  (is_Some (template_map_ tm !! call_name c) →
     is_Some (template_map_ (run_call tm c).2 !! call_name c)) ∧
  (is_Some (template_map_ (run_call tm c).2 !! call_name c) →
     is_Some (template_map_ tm !! call_name c) ∨ c = CallDetect (call_name c)).
Proof.
  destruct c as [name|name|name inner outer params parent|name args];
    simpl in *.
  - split; [|by right]. intros _. unfold DetectNewTemplate.
    destruct (template_map_ tm !! name) as [te|] eqn:Hte; simpl.
    + destruct (finalized te); simpl; [by rewrite Hte|].
      destruct (CleanPartiallyFilledTemplate te) as [[] te']; simpl;
        by rewrite lookup_insert_eq.
    + by rewrite lookup_insert_eq.
  - unfold FinalizeNewTemplate.
    destruct (template_map_ tm !! name) as [te|] eqn:Hte; simpl.
    + split; [|by left]. intros _.
      destruct (Finalize te) as [b te']. simpl. by rewrite lookup_insert_eq.
    + rewrite Hte. split; [done|by left].
  - unfold InstantiateTemplate.
    destruct (template_map_ tm !! name) as [te|] eqn:Hte; simpl.
    + split; [|by left]. intros _.
      destruct (job_manager_ tm) as [jm|]; simpl; [|by rewrite Hte].
      destruct (finalized te); simpl; [|by rewrite Hte].
      destruct (Instantiate _ _ _ _ _ _) as [b [te' jm']]. simpl.
      by rewrite lookup_insert_eq.
    + rewrite Hte. split; [done|by left].
  - unfold AddComputeJobToTemplate.
    destruct (template_map_ tm !! name) as [te|] eqn:Hte; simpl.
    + split; [|by left]. intros _.
      destruct (job_manager_ tm) as [jm|]; simpl; [|by rewrite Hte].
      destruct (finalized te); simpl; [by rewrite Hte|].
      destruct (AddComputeJob args te) as [b te']. simpl.
      by rewrite lookup_insert_eq.
    + rewrite Hte. split; [done|by left].
Qed.

Lemma run_calls_snoc (tm : TemplateManager ops) cs c :
  run_calls tm (cs ++ [c]) = (run_call (run_calls tm cs) c).2.
Proof. unfold run_calls. by rewrite foldl_app. Qed.
End template_calls.

(** X8.  After [DetectNewTemplate], whatever it returned, the name is
    in the template map; when the name was not there before, the call
    returns [true], the name now leads to a fresh [TemplateEntry], and
    the job manager is untouched. *)
Theorem DetectNewTemplate_registers
    `{ops : Template.TemplateEntryOps}
    (tm : Template.TemplateManager ops) (name : string) :
  is_Some (Template.template_map_ (Template.DetectNewTemplate tm name).2
             !! name) ∧
  (Template.template_map_ tm !! name = None →
     (Template.DetectNewTemplate tm name).1 = true ∧
     Template.template_map_ (Template.DetectNewTemplate tm name).2 !! name
       = Some Template.new_TemplateEntry ∧
     Template.job_manager_ (Template.DetectNewTemplate tm name).2
       = Template.job_manager_ tm).
Proof.
  split.
  - unfold Template.DetectNewTemplate.
    destruct (Template.template_map_ tm !! name) as [te|] eqn:Hte; simpl.
    + destruct (Template.finalized te); simpl; [by rewrite Hte|].
      destruct (Template.CleanPartiallyFilledTemplate te) as [[] te']; simpl;
        by rewrite lookup_insert_eq.
    + by rewrite lookup_insert_eq.
  - intros Hnone. unfold Template.DetectNewTemplate. rewrite Hnone. simpl.
    by rewrite lookup_insert_eq.
Qed.

Lemma DetectNewTemplate_registers_witness :
  (Template.DetectNewTemplate Template.toy_manager "fresh").1 = true ∧
  Template.template_map_
    (Template.DetectNewTemplate Template.toy_manager "fresh").2 !! "fresh"
    = Some (false, []) ∧
  Template.job_manager_
    (Template.DetectNewTemplate Template.toy_manager "fresh").2
    = Some [].
Proof.
  refine (proj2 (DetectNewTemplate_registers Template.toy_manager "fresh") _).
  by vm_compute.
Defined.

(** X9.  Along every sequence of [DetectNewTemplate],
    [FinalizeNewTemplate], [InstantiateTemplate] and
    [AddComputeJobToTemplate] calls, whatever they return: no template
    name ever leaves the template map; a name that none of the calls
    was given leads to the entry it led to before; and a name enters
    the map only through a [DetectNewTemplate] call for it. *)
Theorem template_calls_keep_templates
    `{ops : Template.TemplateEntryOps}
    (tm : Template.TemplateManager ops) (cs : list TemplateCalls.call) :
  let tm' := TemplateCalls.run_calls tm cs in
  (∀ n, is_Some (Template.template_map_ tm !! n) →
        is_Some (Template.template_map_ tm' !! n)) ∧
  (∀ n, n ∉ TemplateCalls.call_name <$> cs →
        Template.template_map_ tm' !! n = Template.template_map_ tm !! n) ∧
  (∀ n, is_Some (Template.template_map_ tm' !! n) →
        is_Some (Template.template_map_ tm !! n) ∨
        TemplateCalls.CallDetect n ∈ cs).
Proof.
  simpl. induction cs as [|c cs IH] using rev_ind.
  - split_and!; [done|done|]. by left.
  - destruct IH as (IH1 & IH2 & IH3). rewrite run_calls_snoc.
    set (tm1 := TemplateCalls.run_calls tm cs) in *.
    split_and!.
    + intros n Hn%IH1.
      destruct (decide (n = TemplateCalls.call_name c)) as [->|Hne].
      * by apply run_call_lookup_eq.
      * by rewrite run_call_lookup_ne.
    + intros n. rewrite fmap_app, not_elem_of_app. simpl.
      rewrite list_elem_of_singleton. intros [Hn Hne].
      rewrite run_call_lookup_ne by done. by apply IH2.
    + intros n Hn.
      destruct (decide (n = TemplateCalls.call_name c)) as [->|Hne].
      * apply run_call_lookup_eq in Hn as [Hn|Hc].
        -- apply IH3 in Hn as [?|?]; [by left|right].
           apply elem_of_app. by left.
        -- right. rewrite <-Hc. apply elem_of_app. right. left.
      * rewrite run_call_lookup_ne in Hn by done.
        apply IH3 in Hn as [?|?]; [by left|right]. apply elem_of_app. by left.
Qed.

Lemma template_calls_keep_templates_witness :
  Template.template_map_
    (TemplateCalls.run_calls Template.toy_manager TemplateCalls.toy_calls)
    !! "frozen"
  = Some (true, ["advect"]).
Proof.
  refine (proj1 (proj2 (template_calls_keep_templates Template.toy_manager
                          TemplateCalls.toy_calls)) "frozen" _).
  by_computation.
Defined.

(** X10.  The job manager is reached only by [InstantiateTemplate] on a
    detected, finalized template while a job manager is set: every
    other call leaves it as it is.  While no job manager is set,
    [AddComputeJobToTemplate] and [InstantiateTemplate] return [false]
    without any change, for every name, and no sequence of calls sets
    one. *)
Theorem job_manager_reached_only_by_instantiate
    `{ops : Template.TemplateEntryOps}
    (tm : Template.TemplateManager ops) :
  (∀ c, Template.job_manager_ (TemplateCalls.run_call tm c).2
          ≠ Template.job_manager_ tm →
     ∃ name inner outer params parent te,
       c = TemplateCalls.CallInstantiate name inner outer params parent ∧
       Template.template_map_ tm !! name = Some te ∧
       Template.finalized te = true ∧
       is_Some (Template.job_manager_ tm)) ∧
  (Template.job_manager_ tm = None →
     (∀ name args,
        Template.AddComputeJobToTemplate tm name args = (false, tm)) ∧
     (∀ name inner outer params parent,
        Template.InstantiateTemplate tm name inner outer params parent
        = (false, tm)) ∧
     ∀ cs, Template.job_manager_ (TemplateCalls.run_calls tm cs) = None).
Proof.
  assert (∀ (tm : Template.TemplateManager ops) c,
    Template.job_manager_ (TemplateCalls.run_call tm c).2
      ≠ Template.job_manager_ tm →
    ∃ name inner outer params parent te,
      c = TemplateCalls.CallInstantiate name inner outer params parent ∧
      Template.template_map_ tm !! name = Some te ∧
      Template.finalized te = true ∧
      is_Some (Template.job_manager_ tm)) as Hstep.
  { clear tm. intros tm c.
    destruct c as [name|name|name inner outer params parent|name args]; simpl.
    - unfold Template.DetectNewTemplate.
      destruct (Template.template_map_ tm !! name) as [te|]; simpl;
        [|by intros []].
      destruct (Template.finalized te); simpl; [by intros []|].
      destruct (Template.CleanPartiallyFilledTemplate te) as [[] te'];
        simpl; by intros [].
    - unfold Template.FinalizeNewTemplate.
      destruct (Template.template_map_ tm !! name) as [te|]; simpl;
        [|by intros []].
      destruct (Template.Finalize te) as [b te']. simpl. by intros [].
    - unfold Template.InstantiateTemplate.
      destruct (Template.template_map_ tm !! name) as [te|] eqn:Hte;
        simpl; [|by intros []].
      destruct (Template.job_manager_ tm) as [jm|] eqn:Hjm; simpl;
        [|rewrite Hjm; by intros []].
      destruct (Template.finalized te) eqn:Hfin; simpl;
        [|rewrite Hjm; by intros []].
      intros _. exists name, inner, outer, params, parent, te.
      split_and!; try done.
    - unfold Template.AddComputeJobToTemplate.
      destruct (Template.template_map_ tm !! name) as [te|]; simpl;
        [|by intros []].
      destruct (Template.job_manager_ tm) as [jm|] eqn:Hjm; simpl;
        [|rewrite Hjm; by intros []].
      destruct (Template.finalized te); simpl; [rewrite Hjm; by intros []|].
      destruct (Template.AddComputeJob args te) as [b te']. simpl.
      rewrite Hjm. by intros []. }
  split; [apply Hstep|]. intros Hnone. split_and!.
  - intros name args. unfold Template.AddComputeJobToTemplate. rewrite Hnone.
    by destruct (Template.template_map_ tm !! name).
  - intros name inner outer params parent.
    unfold Template.InstantiateTemplate. rewrite Hnone.
    by destruct (Template.template_map_ tm !! name).
  - intros cs. induction cs as [|c cs IH] using rev_ind; [done|].
    rewrite run_calls_snoc. revert IH.
    generalize (TemplateCalls.run_calls tm cs). clear. intros tm Hnone.
    destruct c as [name|name|name inner outer params parent|name args]; simpl.
    + unfold Template.DetectNewTemplate.
      destruct (Template.template_map_ tm !! name) as [te|]; simpl; [|done].
      destruct (Template.finalized te); simpl; [done|].
      by destruct (Template.CleanPartiallyFilledTemplate te) as [[] te'].
    + unfold Template.FinalizeNewTemplate.
      destruct (Template.template_map_ tm !! name) as [te|]; simpl; [|done].
      by destruct (Template.Finalize te) as [b te'].
    + unfold Template.InstantiateTemplate. rewrite Hnone.
      by destruct (Template.template_map_ tm !! name).
    + unfold Template.AddComputeJobToTemplate. rewrite Hnone.
      by destruct (Template.template_map_ tm !! name).
Qed.

Lemma job_manager_reached_only_by_instantiate_witness :
  Template.job_manager_
    (TemplateCalls.run_calls
       (TemplateCalls.set_job_manager Template.toy_manager None)
       TemplateCalls.toy_calls) = None.
Proof.
  refine (proj2 (proj2 (proj2 (job_manager_reached_only_by_instantiate
    (TemplateCalls.set_job_manager Template.toy_manager None)) _))
    TemplateCalls.toy_calls).
  reflexivity.
Defined.

(** * Properties of the complex job entry *)

Lemma collect_parents_in_range inner indices : ∀ count acc,
  (0 ≤ count)%Z →
  (count + Z.of_nat (length indices) < ExecutionTemplate.size_t_modulus)%Z →
  Forall (λ i, N.to_nat i < length inner) indices →
  ComplexJob.collect_parents inner indices count acc =
    Ok ((count + Z.of_nat (length indices))%Z,
        acc ++ omap (λ i, inner !! N.to_nat i) indices) ∧
  length (omap (λ i, inner !! N.to_nat i) indices) = length indices.
Proof.
  induction indices as [|i indices IH]; intros count acc Hc Hfit Hr.
  - simpl. by rewrite Z.add_0_r, app_nil_r.
  - apply Forall_cons in Hr as [Hi Hr].
    destruct (lookup_lt_is_Some_2 inner (N.to_nat i) Hi) as [id Hid].
    cbn [ComplexJob.collect_parents omap list_omap]. rewrite Hid.
    rewrite length_cons, Nat2Z.inj_succ in Hfit.
    unfold ExecutionTemplate.to_size_t. rewrite Z.mod_small by lia.
    destruct (IH (count + 1)%Z (acc ++ [id])) as [-> Hlen]; [lia|lia|done|].
    split; [|by rewrite !length_cons, Hlen].
    rewrite length_cons, Nat2Z.inj_succ.
    f_equal. f_equal; [lia|]. by rewrite <-app_assoc.
Qed.

Lemma collect_parents_out_of_range inner indices : ∀ count acc,
  Exists (λ i, length inner ≤ N.to_nat i) indices →
  ComplexJob.collect_parents inner indices count acc = Undefined.
Proof.
  induction indices as [|i indices IH]; intros count acc Hex; simpl.
  - by apply Exists_nil in Hex.
  - destruct (inner !! N.to_nat i) as [id|] eqn:Hid; [|done].
    apply Exists_cons in Hex as [Hi|Hex]; [|by apply IH].
    apply lookup_lt_Some in Hid. lia.
Qed.

(** X11.  [GetParentJobIds], once the template entry has handed out
    the indices of its parent jobs: when every index is below the
    number of inner job ids, the call returns the number of indices and
    leaves in the list the inner job ids at these indices, in order,
    whatever the list held before; when some index is out of range the
    unchecked vector access is undefined; and when the template entry
    reports failure the call stops in [assert(false)]. *)
Theorem GetParentJobIds_collects_inner_ids
    {TemplateEntryPtr ParameterT : Type}
    (GetParentJobIndices : TemplateEntryPtr → bool * list N)
    (e : @ComplexJob.ComplexJobEntry TemplateEntryPtr ParameterT)
    (list_ : list job_id_t) (ok : bool) (indices : list N) :
  GetParentJobIndices (ComplexJob.template_entry_ e) = (ok, indices) →
  (Z.of_nat (length indices) < ExecutionTemplate.size_t_modulus)%Z →
  let inner := ComplexJob.inner_job_ids_ e in
  let call := ComplexJob.GetParentJobIds GetParentJobIndices e list_ in
  (ok = false → call = AssertFail) ∧
  (ok = true → Forall (λ i, N.to_nat i < length inner) indices →
     call = Ok (Z.of_nat (length indices),
                omap (λ i, inner !! N.to_nat i) indices) ∧
     length (omap (λ i, inner !! N.to_nat i) indices) = length indices) ∧
  (ok = true → Exists (λ i, length inner ≤ N.to_nat i) indices →
     call = Undefined).
Proof.
  intros Hidx Hfit. simpl. unfold ComplexJob.GetParentJobIds. rewrite Hidx.
  split_and!; intros ->; simpl.
  - done.
  - intros Hr.
    destruct (collect_parents_in_range (ComplexJob.inner_job_ids_ e) indices
                0%Z [] ltac:(lia) ltac:(lia) Hr) as [-> Hlen].
    done.
  - by apply collect_parents_out_of_range.
Qed.

Lemma GetParentJobIds_collects_inner_ids_witness :
  ComplexJob.GetParentJobIds (λ te : list N, (true, te))
    (ComplexJob.ComplexJobEntry_ctor (ParameterT := string)
       9%N 1%N [2%N; 0%N] [21%N; 22%N; 23%N] [30%N] ["dt"])
    [77%N]
  = Ok (2%Z, [23%N; 21%N]).
Proof.
  refine (proj1 (proj1 (proj2 (GetParentJobIds_collects_inner_ids
    (λ te : list N, (true, te))
    (ComplexJob.ComplexJobEntry_ctor (ParameterT := string)
       9%N 1%N [2%N; 0%N] [21%N; 22%N; 23%N] [30%N] ["dt"])
    [77%N] true [2%N; 0%N] _ _)) _ _)).
  - reflexivity.
  - by vm_compute.
  - reflexivity.
  - by_computation.
Defined.

(** * Live parents across pruning and splicing *)

Lemma writers_ext c c' (i : Index) :
  (∀ it, it ∈ i → deref c it = deref c' it) → writers c i = writers c' i.
Proof.
  intros Hext. unfold writers. f_equal. apply list_omap_ext.
  apply Forall2_same_length_lookup. split; [done|].
  intros k it it' Hit Hit'. simplify_eq.
  rewrite (Hext it); [done|]. by eapply list_elem_of_lookup_2.
Qed.

Lemma CleanChain_deref_kept s live b s' :
  well_formed s → CleanChain s live = Ok (b, s') →
  ∀ it, it ∈ parents_index_ s' → deref (chain_ s') it = deref (chain_ s) it.
Proof.
  intros Hwf Hcc it Hit.
  pose proof (CleanChain_well_formed _ _ _ _ Hwf Hcc) as Hwf'.
  apply CleanChain_Ok_inv in Hcc as (_ & Hcase & _).
  destruct Hcase as [(_ & _ & Hi)|(_ & pre & iit & post & _ & Her & _)].
  { rewrite Hi in Hit. by apply elem_of_nil in Hit. }
  apply erase_until_Ok in Her as (older & Hc & _).
  destruct (linked_deref _ _ _ (wf_nodup _ Hwf') (wf_linked _ Hwf') Hit)
    as (n & e & -> & He & -> & _).
  simpl. rewrite (find_node_elem_of n e); [done|apply Hwf|].
  rewrite Hc. apply elem_of_app. by right.
Qed.

(** X12.  Pruning keeps the live parents: on a well-formed lineage,
    after [CleanChain] has returned, every job of the live set is still
    a writer in the parent index that remains, with a non-sterile entry
    in the chain that remains. *)
Theorem CleanChain_keeps_live_parents
    (s : LogicalDataLineage) (live : IDSet) (b : bool)
    (s' : LogicalDataLineage) :
  well_formed s → CleanChain s live = Ok (b, s') →
  live ⊆ writers (chain_ s') (parents_index_ s') ∧
  ∀ j, j ∈ live →
    ∃ n e, (n, e) ∈ chain_ s' ∧ job_id e = j ∧ sterile e = false.
Proof.
  intros Hwf Hcc.
  pose proof (CleanChain_well_formed _ _ _ _ Hwf Hcc) as Hwf'.
  pose proof (CleanChain_deref_kept _ _ _ _ Hwf Hcc) as Hkept.
  assert (live ⊆ writers (chain_ s') (parents_index_ s')) as Hlive.
  { rewrite (writers_ext _ (chain_ s)) by done.
    apply CleanChain_Ok_inv in Hcc as (_ & Hcase & _).
    destruct Hcase as [(-> & _)|(_ & pre & iit & post & _ & _ & -> & _ & Hcov & _)];
      [set_solver|done]. }
  split; [done|]. intros j (it & e & Hit & He & <-)%Hlive%writers_elem_of.
  destruct (linked_deref _ _ _ (wf_nodup _ Hwf') (wf_linked _ Hwf') Hit)
    as (n & e' & _ & Hin & He' & Hst).
  rewrite He in He'. injection He' as <-. by exists n, e.
Qed.

Lemma CleanChain_keeps_live_parents_witness :
  ({[ 13%N ]} : IDSet) ⊆ writers [(2, e3)] [It 2].
Proof.
  refine (proj1 (CleanChain_keeps_live_parents with_sterile {[ 13%N ]} true
    {| ldid_ := 7%N; chain_ := [(2, e3)]; parents_index_ := [It 2];
       next_node := 3 |} with_sterile_well_formed _)).
  vm_compute. reflexivity.
Defined.

(** X13.  A parent spliced in by [InsertParentLdlEntry] is not a writer
    of the parent index: on a well-formed lineage, when the call has
    returned for a job that had no entry in the chain, [CleanChain]
    with that job as the only live parent stops in its assertion. *)
Theorem InsertParentLdlEntry_then_CleanChain_aborts
    (s : LogicalDataLineage) (j : job_id_t) (v : data_version_t)
    (d : job_depth_t) (b : bool) (s' : LogicalDataLineage) :
  well_formed s →
  (∀ x, x ∈ chain_ s → job_id x.2 ≠ j) →
  InsertParentLdlEntry s j v d false = Ok (b, s') →
  CleanChain s' {[ j ]} = AssertFail.
Proof.
  intros Hwf Hnew Hins.
  pose proof (InsertParentLdlEntry_well_formed _ _ _ _ _ _ _ Hwf Hins) as Hwf'.
  destruct (InsertParentLdlEntry_never_links_new_entry _ _ _ _ _ _ _ Hwf Hins)
    as [_ Hnot].
  apply InsertParentLdlEntry_Ok_chain in Hins as [_ Hc].
  destruct (InsertParentLdlEntry_chain_spec (chain_ s) (next_node s)
              (mkLdlEntry j v d false)) as (A & B & HAB & Hch & _).
  rewrite Hch in Hc. simpl in Hc.
  apply CleanChain_absent.
  - set_solver.
  - by apply well_formed_valid_index.
  - intros Hsub.
    assert (j ∈ writers (chain_ s') (parents_index_ s')) as Hj by set_solver.
    apply writers_elem_of in Hj as (it & e & Hit & He & Hje).
    destruct it as [m|]; [|done]. simpl in He.
    destruct (find_node m (chain_ s')) as [e'|] eqn:Hfind; [|done].
    injection He as ->. apply find_node_Some in Hfind.
    rewrite Hc in Hfind.
    apply elem_of_app in Hfind as [Hin|[Heq|Hin]%elem_of_cons].
    + apply (Hnew (m, e)); [|done]. rewrite HAB. apply elem_of_app. by left.
    + injection Heq as -> _. done.
    + apply (Hnew (m, e)); [|done]. rewrite HAB. apply elem_of_app. by right.
Qed.

Lemma InsertParentLdlEntry_then_CleanChain_aborts_witness :
  CleanChain
    {| ldid_ := 7%N;
       chain_ := [(0, e1); (2, mkLdlEntry 12%N 2%N 0%N false); (1, e3)];
       parents_index_ := [It 0; It 1; It 1];
       next_node := 3 |} {[ 12%N ]} = AssertFail.
Proof.
  refine (InsertParentLdlEntry_then_CleanChain_aborts two_writers
            12%N 2%N 0%N true _ two_writers_well_formed _ _).
  - intros x Hx. repeat (apply elem_of_cons in Hx as [->|Hx]; [done|]).
    by apply elem_of_nil in Hx.
  - vm_compute. reflexivity.
Defined.
